(** * symbolic: the PDDL façade ([src/pddl.cc])

    A shallow embedding of the [symbolic::Pddl] façade: construction from the
    VAL tree ([ParsePddl], [GetObjects], [CreateObjectTypeMap], [GetActions],
    [GetInitialState]), the state and action queries ([NextState],
    [IsValidAction], [IsValidTuple], [IsValidPlan], [ListValidArguments],
    [ListValidActions]) and the text forms ([ParseState], [Stringify]).

    The classes the façade calls into ([Object], [Proposition], [Action],
    [DerivedPredicate], [ParameterGenerator], the goal evaluator) live in
    other translation units; they are modelled from the specification and
    marked as such.  C++ exceptions are values of [Error] in the [Result]
    monad; [std::set] is [gset], [std::unordered_map] is [gmap],
    [std::vector] is [list]. *)

From Stdlib Require Import Ascii String.
From stdpp Require Import base option list strings gmap sets sorting.

Local Open Scope string_scope.
Set Warnings "-register-all,-clear-no-such-hyp".

(** ** Errors and the [Result] monad *)

Inductive Error : Type :=
| LoadError (what : string)          (* std::runtime_error thrown by ParsePddl *)
| NullDereference                    (* dereferencing a null tree pointer: undefined in C++ *)
| ParseError (text : string)         (* text is not of the form name(arg, ...) *)
| UnknownObject (token : string)
| UnknownAction (token : string)
| ArityMismatch
| UnsupportedGoalConstruct
| ClosureDiverged.

Inductive Result (A : Type) : Type :=
| Ok (a : A)
| Err (e : Error).
Arguments Ok {A} a.
Arguments Err {A} e.

#[global] Instance Result_ret : MRet Result := @Ok.
#[global] Instance Result_bind : MBind Result :=
  λ A B f m, match m with Ok a => f a | Err e => Err e end.
#[global] Instance Result_fmap : FMap Result :=
  λ A B f m, match m with Ok a => Ok (f a) | Err e => Err e end.

#[global] Instance Error_eq_dec : EqDecision Error.
Proof. solve_decision. Defined.
#[global] Instance Result_eq_dec `{EqDecision A} : EqDecision (Result A).
Proof. solve_decision. Defined.

(** [mapM] over [Result], left to right, stopping at the first error. *)
Fixpoint mapR {A B} (f : A → Result B) (l : list A) : Result (list B) :=
  match l with
  | [] => Ok []
  | x :: l' => y ← f x; ys ← mapR f l'; Ok (y :: ys)
  end.

(** Left fold in [Result]: a C++ [for] loop with a mutable accumulator whose
    body may throw. *)
Definition foldR {A B} (f : B → A → Result B) : B → list A → Result B :=
  fix go b l :=
    match l with
    | [] => Ok b
    | x :: l' => b' ← f b x; go b' l'
    end.

(** Short-circuit conjunction and disjunction of a list of checks. *)
Definition allR {A} (f : A → Result bool) : list A → Result bool :=
  fix go l :=
    match l with
    | [] => Ok true
    | x :: l' => b ← f x; if b : bool then go l' else Ok false
    end.

Definition anyR {A} (f : A → Result bool) : list A → Result bool :=
  fix go l :=
    match l with
    | [] => Ok false
    | x :: l' => b ← f x; if b : bool then Ok true else go l'
    end.

(** Filter with a predicate that may throw ([push_back] under an [if]). *)
Fixpoint filterR {A} (f : A → Result bool) (l : list A) : Result (list A) :=
  match l with
  | [] => Ok []
  | x :: l' => b ← f x; ys ← filterR f l'; Ok (if b : bool then x :: ys else ys)
  end.

(** ** The VAL tree (external parser), as far as the façade reads it *)

Inductive symbol_kind : Type := var_symbol | const_symbol.

(** [VAL::parameter_symbol]: a name and its declared type(s). *)
Record parameter_symbol : Type := mk_symbol {
  sym_kind : symbol_kind;
  getName : string;
  sym_types : list string;
}.

(** [VAL::pddl_type]: a type name and its parent type names. *)
Record pddl_type : Type := mk_pddl_type {
  type_getName : string;
  type_parents : list string;
}.

(** [VAL::proposition]: [prop->head->getName()] and [prop->args]. *)
Record proposition : Type := mk_proposition {
  prop_head : string;
  prop_args : list parameter_symbol;
}.

Inductive quantifier : Type := E_FORALL | E_EXISTS.

(** [VAL::goal] and its subclasses, as dispatched on in [PrintGoal]. *)
Inductive goal : Type :=
| simple_goal (prop : proposition)
| conj_goal (goals : list goal)
| disj_goal (goals : list goal)
| neg_goal (g : goal)
| qfied_goal (q : quantifier) (vars : list parameter_symbol) (g : goal)
| imply_goal (antecedent consequent : goal)
| timed_goal (g : goal)
| comparison
| constraint_goal
| preference (g : goal).

(** [VAL::effect_lists]: the four lists walked by [PrintEffects]; a
    [forall_effect] is its variable list with its effects, a [cond_effect]
    its condition with its effects. *)
Inductive effect_lists : Type := mk_effect_lists {
  add_effects : list proposition;
  del_effects : list proposition;
  forall_effects : list (list parameter_symbol * effect_lists);
  cond_effects : list (goal * effect_lists);
}.

(** [VAL::operator_] with the subclass [dynamic_cast] tests for. *)
Inductive operator_class : Type := class_action | class_axiom | class_other.

#[global] Instance operator_class_eq_dec : EqDecision operator_class.
Proof. solve_decision. Defined.

Record operator_ : Type := mk_operator {
  op_class : operator_class;
  op_name : string;
  op_parameters : list parameter_symbol;
  op_precondition : goal;
  op_effects : effect_lists;
}.

Record derivation_rule : Type := mk_derivation_rule {
  drv_head : proposition;
  drv_body : goal;
}.

Record domain : Type := mk_domain {
  types : list pddl_type;
  constants : list parameter_symbol;
  ops : list operator_;
  drvs : list derivation_rule;
}.

Record problem : Type := mk_problem {
  objects : list parameter_symbol;
  initial_state : effect_lists;
  the_goal : goal;
}.

(** [VAL::analysis]: both pointers start out null. *)
Record analysis : Type := mk_analysis {
  the_domain : option domain;
  the_problem : option problem;
}.

(** ** Objects, propositions, states *)

(** Modelled from the spec: [symbolic::Object] (§3), "a name plus the set of
    type names it satisfies"; the façade reads [name()] and
    [type().ListTypes()]. *)
Record Object : Type := mkObject {
  Object_name : string;
  ListTypes : list string;
}.

(** Modelled from the spec: [symbolic::Proposition] (§3), "a predicate name
    + ordered sequence of Object references", equal "iff name and argument
    sequence (order-sensitive) are equal". *)
Record Proposition : Type := mkProposition {
  Proposition_name : string;
  Proposition_arguments : list Object;
}.

#[global] Instance Object_eq_dec : EqDecision Object.
Proof. solve_decision. Defined.
#[global] Instance Object_countable : Countable Object.
Proof.
  refine (inj_countable' (λ o, (Object_name o, ListTypes o))
                         (λ p, mkObject p.1 p.2) _).
  by intros [].
Defined.
#[global] Instance Proposition_eq_dec : EqDecision Proposition.
Proof. solve_decision. Defined.
#[global] Instance Proposition_countable : Countable Proposition.
Proof.
  refine (inj_countable' (λ p, (Proposition_name p, Proposition_arguments p))
                         (λ p, mkProposition p.1 p.2) _).
  by intros [].
Defined.

(** [using State = std::set<Proposition>]. *)
Abbreviation State := (gset Proposition).

(** [std::unordered_map<std::string, std::vector<Object>>]. *)
Abbreviation ObjectTypeMap := (gmap string (list Object)).

(** Modelled from the spec: [Object(domain.types, symbol)] and
    [Object::CreateList] (object.cc is not part of this unit).  §3: an object
    is "a name plus the set of type names it satisfies (its own type and all
    ancestor types)"; §4.1: the declared type is resolved "by walking the
    type lattice".  The walk is cut off after as many steps as there are
    declared types, which covers every acyclic lattice. *)
Definition parents_of (tys : list pddl_type) (ty : string) : list string :=
  flat_map type_parents (filter (λ t, type_getName t = ty) tys).

Fixpoint ancestors (fuel : nat) (tys : list pddl_type) (ty : string)
  : list string :=
  ty :: match fuel with
        | O => []
        | S n => flat_map (ancestors n tys) (parents_of tys ty)
        end.

(** Duplicate-free union of a list, first occurrences kept in order. *)
Fixpoint union_first {A} `{EqDecision A} (seen l : list A) : list A :=
  match l with
  | [] => []
  | x :: l' =>
      if decide (x ∈ seen) then union_first seen l'
      else x :: union_first (x :: seen) l'
  end.

Definition Object_new (tys : list pddl_type) (sym : parameter_symbol) : Object :=
  {| Object_name := getName sym;
     ListTypes :=
       union_first [] (flat_map (ancestors (length tys) tys) (sym_types sym)) |}.

Definition Object_CreateList (tys : list pddl_type)
    (symbols : list parameter_symbol) : list Object :=
  Object_new tys <$> symbols.

(** ** Text forms *)

(** Modelled from the spec: §4.3 and §6 fix the canonical text
    [name(arg1, arg2, ...)], "zero args rendered as [name()]"; the same text
    form serves action calls (§4.4). *)
Definition call_to_string (name : string) (arguments : list Object) : string :=
  name +:+ "(" +:+ String.concat ", " (Object_name <$> arguments) +:+ ")".

Definition Proposition_to_string (prop : Proposition) : string :=
  call_to_string (Proposition_name prop) (Proposition_arguments prop).

(** Modelled from the spec: "parsing the inverse form" of the canonical text
    (§4.3).  The head runs up to the first opening parenthesis, the text must
    end with a closing parenthesis, and what is in between is cut at every
    comma, blanks after a comma being skipped. *)
Fixpoint split_head (s : string) : option (string * string) :=
  match s with
  | EmptyString => None
  | String c s' =>
      if Ascii.eqb c "("%char then Some (EmptyString, s')
      else '(h, rest) ← split_head s'; Some (String c h, rest)
  end.

Fixpoint strip_close (s : string) : option string :=
  match s with
  | EmptyString => None
  | String c EmptyString =>
      if Ascii.eqb c ")"%char then Some EmptyString else None
  | String c s' => String c <$> strip_close s'
  end.

Fixpoint split_commas (s : string) : list string :=
  match s with
  | EmptyString => [EmptyString]
  | String c s' =>
      if Ascii.eqb c ","%char then EmptyString :: split_commas s'
      else match split_commas s' with
           | [] => [String c EmptyString]
           | t :: ts => String c t :: ts
           end
  end.

Fixpoint skip_blanks (s : string) : string :=
  match s with
  | String c s' => if Ascii.eqb c " "%char then skip_blanks s' else s
  | EmptyString => EmptyString
  end.

Definition ParseCall (text : string) : Result (string * list string) :=
  match split_head text with
  | None => Err (ParseError text)
  | Some (h, rest) =>
      match strip_close rest with
      | None => Err (ParseError text)
      | Some EmptyString => Ok (h, [])
      | Some inner => Ok (h, skip_blanks <$> split_commas inner)
      end
  end.

(** ** The façade's data *)

(** Modelled from the spec: [symbolic::Action] (§3), "a name, an ordered list
    of typed parameters ..., a precondition goal-expression, and an effect
    list", built from a [VAL::operator_]. *)
Record Action : Type := mkAction {
  Action_name : string;
  Action_parameters : list parameter_symbol;
  Action_precondition : goal;
  Action_effects : effect_lists;
}.

(** Modelled from the spec: [symbolic::Axiom], built from a
    [VAL::operator_]; axioms "are retained as loaded data" and "not
    exercised by the transition path" (§4.5). *)
Record AxiomRule : Type := mkAxiomRule {
  AxiomRule_symbol : operator_;
}.

(** Modelled from the spec: [symbolic::DerivedPredicate] (§3), "a head
    predicate pattern over its own typed parameters and a body
    goal-expression", built from a [VAL::derivation_rule]. *)
Record DerivedPredicate : Type := mkDerivedPredicate {
  DerivedPredicate_name : string;
  DerivedPredicate_parameters : list parameter_symbol;
  DerivedPredicate_body : goal;
}.

(** The members of [class Pddl], in declaration order of the constructor's
    initialiser list. *)
Record Pddl : Type := mkPddl {
  analysis_ : analysis;
  domain_ : domain;
  problem_ : problem;
  objects_ : list Object;
  object_map_ : ObjectTypeMap;
  actions_ : list Action;
  axioms_ : list AxiomRule;
  derived_predicates_ : list DerivedPredicate;
  initial_state_ : State;
  goal_ : goal;
}.

(** Modelled from the spec: [Action(pddl, op)] keeps the operator's name,
    parameters, precondition and effects. *)
Definition Action_new (op : operator_) : Action :=
  {| Action_name := op_name op;
     Action_parameters := op_parameters op;
     Action_precondition := op_precondition op;
     Action_effects := op_effects op |}.

(** Modelled from the spec: [DerivedPredicate(pddl, drv)] keeps the head's
    name, the head's parameters and the body. *)
Definition DerivedPredicate_new (drv : derivation_rule) : DerivedPredicate :=
  {| DerivedPredicate_name := prop_head (drv_head drv);
     DerivedPredicate_parameters := prop_args (drv_head drv);
     DerivedPredicate_body := drv_body drv |}.

(** ** Registry lookups and text parsing against the façade *)

(** Modelled from the spec: §4.1 "lookup object by name (fails with
    [UnknownObject] if absent)"; the first object of that name wins, so
    "name collisions favor constants". *)
Definition Object_Parse (pddl : Pddl) (token : string) : Result Object :=
  match List.find (λ o, bool_decide (Object_name o = token)) (objects_ pddl) with
  | Some o => Ok o
  | None => Err (UnknownObject token)
  end.

(** Modelled from the spec: §4.3, [Proposition(pddl, str_prop)] "resolves
    each argument token to an Object via the registry; fails with
    [UnknownObject] if a token does not name a known object"; the arity of a
    proposition "is not strictly enforced". *)
Definition Proposition_Parse (pddl : Pddl) (str_prop : string)
  : Result Proposition :=
  '(h, tokens) ← ParseCall str_prop;
  arguments ← mapR (Object_Parse pddl) tokens;
  Ok (mkProposition h arguments).

(** Modelled from the spec: §4.4, [Action::Parse] "resolves the name against
    the façade's action list ([UnknownAction] if absent) and each argument
    token against the Object Registry ([UnknownObject] if absent); arity is
    the declared parameter count ([ArityMismatch] if violated)". *)
Definition Action_Parse (pddl : Pddl) (action_call : string)
  : Result (Action * list Object) :=
  '(h, tokens) ← ParseCall action_call;
  match List.find (λ a, bool_decide (Action_name a = h)) (actions_ pddl) with
  | None => Err (UnknownAction h)
  | Some action =>
      arguments ← mapR (Object_Parse pddl) tokens;
      if bool_decide (length arguments = length (Action_parameters action))
      then Ok (action, arguments)
      else Err ArityMismatch
  end.

(** Modelled from the spec: §4.4, the constructor [Action(pddl, name)]
    "resolves the name against the façade's action list ([UnknownAction] if
    absent)". *)
Definition Action_of_name (pddl : Pddl) (action_name : string)
  : Result Action :=
  match List.find (λ a, bool_decide (Action_name a = action_name))
                  (actions_ pddl) with
  | Some action => Ok action
  | None => Err (UnknownAction action_name)
  end.

(** Modelled from the spec: §4.4, the action-call text form
    [name(arg1, arg2, ...)] of [action.to_string(args)]. *)
Definition Action_to_string (action : Action) (arguments : list Object)
  : string :=
  call_to_string (Action_name action) arguments.

(** ** Parameter generator *)

(** Modelled from the spec: §4.2, "the Cartesian product over, for each
    parameter, the union of objects satisfying any of its allowed types,
    preserving the type index's per-type ordering and parameter order";
    a type without members has the empty sequence (§4.1). *)
Definition objects_of_type (object_map : ObjectTypeMap) (ty : string)
  : list Object :=
  default [] (object_map !! ty).

Definition param_objects (object_map : ObjectTypeMap) (param : parameter_symbol)
  : list Object :=
  union_first [] (flat_map (objects_of_type object_map) (sym_types param)).

Fixpoint product {A} (ls : list (list A)) : list (list A) :=
  match ls with
  | [] => [[]]
  | l :: ls' => flat_map (λ x, cons x <$> product ls') l
  end.

Definition ParameterGenerator (object_map : ObjectTypeMap)
    (params : list parameter_symbol) : list (list Object) :=
  product (param_objects object_map <$> params).

(** ** Goal evaluator *)

Abbreviation Substitution := (list (string * Object)).

(** Modelled from the spec: §4.4 binds arguments "positionally" to
    parameters; inner bindings go in front and shadow outer ones.  A
    variable symbol is looked up in the substitution, a constant symbol is
    the object built from it. *)
Definition bind_arguments (params : list parameter_symbol)
    (arguments : list Object) : Substitution :=
  zip (getName <$> params) arguments.

Definition resolve (pddl : Pddl) (σ : Substitution) (sym : parameter_symbol)
  : Result Object :=
  match sym_kind sym with
  | const_symbol => Ok (Object_new (types (domain_ pddl)) sym)
  | var_symbol =>
      match List.find (λ b, bool_decide (b.1 = getName sym)) σ with
      | Some b => Ok b.2
      | None => Err (UnknownObject (getName sym))
      end
  end.

Definition ground (pddl : Pddl) (σ : Substitution) (p : proposition)
  : Result Proposition :=
  arguments ← mapR (resolve pddl σ) (prop_args p);
  Ok (mkProposition (prop_head p) arguments).

(** Modelled from the spec: §4.6 [Eval(node, state)], here [Evaluate].  Proposition:
    membership of the substituted proposition; And/Or short-circuit; Not
    negates; ForAll/Exists range over the Parameter Generator (vacuously true,
    respectively false); every other node kind "fails with
    [UnsupportedGoalConstruct]". *)
Fixpoint Evaluate (pddl : Pddl) (g : goal) (σ : Substitution) (state : State)
  : Result bool :=
  match g with
  | simple_goal p => P ← ground pddl σ p; Ok (bool_decide (P ∈ state))
  | conj_goal gs => allR (λ g', Evaluate pddl g' σ state) gs
  | disj_goal gs => anyR (λ g', Evaluate pddl g' σ state) gs
  | neg_goal g' => negb <$> Evaluate pddl g' σ state
  | qfied_goal E_FORALL vars g' =>
      allR (λ t, Evaluate pddl g' (bind_arguments vars t ++ σ) state)
           (ParameterGenerator (object_map_ pddl) vars)
  | qfied_goal E_EXISTS vars g' =>
      anyR (λ t, Evaluate pddl g' (bind_arguments vars t ++ σ) state)
           (ParameterGenerator (object_map_ pddl) vars)
  | imply_goal _ _ | timed_goal _ | comparison | constraint_goal
  | preference _ => Err UnsupportedGoalConstruct
  end.

(** Modelled from the spec: §4.7 [IsGoalSatisfied] is "§4.6 against the
    façade's Goal"; [goal_(state)] evaluates the problem's goal, which has
    no free parameters. *)
Definition Goal_eval (pddl : Pddl) (state : State) : Result bool :=
  Evaluate pddl (goal_ pddl) [] state.

(** ** Actions *)

(** Modelled from the spec: §4.4 [IsValid(state, args)] "binds [args]
    positionally to the Action's parameters, substitutes bound Objects into
    the precondition goal-expression, and evaluates it". *)
Definition Action_IsValid (pddl : Pddl) (action : Action) (state : State)
    (arguments : list Object) : Result bool :=
  Evaluate pddl (Action_precondition action)
       (bind_arguments (Action_parameters action) arguments) state.

(** Modelled from the spec: §4.4 [Apply].  Add and delete propositions are
    substituted and added to / removed from a working copy; a conditional
    effect is applied when its condition holds in the pre-transition state
    [pre]; a quantified effect is applied once per binding of its variables.
    No precondition is looked at. *)
Fixpoint apply_effects (pddl : Pddl) (pre : State) (effs : effect_lists)
    (σ : Substitution) (work : State) : Result State :=
  work ← foldR (λ w p, P ← ground pddl σ p; Ok ({[P]} ∪ w))
               work (add_effects effs);
  work ← foldR (λ w p, P ← ground pddl σ p; Ok (w ∖ {[P]}))
               work (del_effects effs);
  work ← foldR (λ w ce,
                  b ← Evaluate pddl ce.1 σ pre;
                  if b : bool then apply_effects pddl pre ce.2 σ w else Ok w)
               work (cond_effects effs);
  foldR (λ w fe,
           foldR (λ w' t,
                    apply_effects pddl pre fe.2 (bind_arguments fe.1 t ++ σ) w')
                 w (ParameterGenerator (object_map_ pddl) fe.1))
        work (forall_effects effs).

(** Modelled from the spec: §4.4, the pure form
    [State Action::Apply(const State&, arguments)], which returns "the new
    State". *)
Definition Action_Apply (pddl : Pddl) (action : Action) (state : State)
    (arguments : list Object) : Result State :=
  apply_effects pddl state (Action_effects action)
                (bind_arguments (Action_parameters action) arguments) state.

(** Modelled from the spec: §4.4, the performance form
    [bool Action::Apply(arguments, State* state)] mutates "the state in
    place", returns "a boolean changed flag" and is "semantically
    equivalent" to the pure form: the same walk over the effects, on the
    caller's state, reporting whether an insertion or an erasure took
    place. *)
Fixpoint apply_effects_inplace (pddl : Pddl) (pre : State) (effs : effect_lists)
    (σ : Substitution) (st : bool * State) : Result (bool * State) :=
  st ← foldR (λ st p, P ← ground pddl σ p;
                      Ok (st.1 || bool_decide (P ∉ st.2), {[P]} ∪ st.2))
             st (add_effects effs);
  st ← foldR (λ st p, P ← ground pddl σ p;
                      Ok (st.1 || bool_decide (P ∈ st.2), st.2 ∖ {[P]}))
             st (del_effects effs);
  st ← foldR (λ st ce,
                b ← Evaluate pddl ce.1 σ pre;
                if b : bool then apply_effects_inplace pddl pre ce.2 σ st
                else Ok st)
             st (cond_effects effs);
  foldR (λ st fe,
           foldR (λ st' t,
                    apply_effects_inplace pddl pre fe.2
                      (bind_arguments fe.1 t ++ σ) st')
                 st (ParameterGenerator (object_map_ pddl) fe.1))
        st (forall_effects effs).

Definition Action_Apply_inplace (pddl : Pddl) (action : Action)
    (arguments : list Object) (state : State) : Result (bool * State) :=
  apply_effects_inplace pddl state (Action_effects action)
    (bind_arguments (Action_parameters action) arguments) (false, state).

(** ** Derived-predicate closure *)

(** Modelled from the spec: §4.5.  One derived predicate: "enumerate all
    bindings of its parameters via the Parameter Generator, evaluate its body
    goal-expression against the current (already partially derived) state,
    and if true, add the corresponding head proposition". *)
Definition DerivedPredicate_derive (pddl : Pddl) (st : bool * State)
    (pred : DerivedPredicate) : Result (bool * State) :=
  foldR (λ st t,
           b ← Evaluate pddl (DerivedPredicate_body pred)
                 (bind_arguments (DerivedPredicate_parameters pred) t) st.2;
           if b : bool then
             let P := mkProposition (DerivedPredicate_name pred) t in
             Ok (st.1 || bool_decide (P ∉ st.2), {[P]} ∪ st.2)
           else Ok st)
        st (ParameterGenerator (object_map_ pddl)
                               (DerivedPredicate_parameters pred)).

(** Modelled from the spec: §4.5, one "full pass over all derived
    predicates". *)
Definition DerivedPredicate_pass (pddl : Pddl)
    (predicates : list DerivedPredicate) (state : State)
  : Result (bool * State) :=
  foldR (DerivedPredicate_derive pddl) (false, state) predicates.

(** Modelled from the spec: §4.5, "repeat the full pass ... until a pass
    adds no new proposition"; a closure that "does not stabilize within the
    provable bound" is a fatal invariant violation (§7). *)
Fixpoint closure_loop (passes : nat) (pddl : Pddl)
    (predicates : list DerivedPredicate) (state : State)
  : Result (bool * State) :=
  match passes with
  | O => Err ClosureDiverged
  | S n =>
      st ← DerivedPredicate_pass pddl predicates state;
      if st.1 : bool then
        st' ← closure_loop n pddl predicates st.2; Ok (true, st'.2)
      else Ok (false, st.2)
  end.

(** Every head grounding of every derived predicate. *)
Definition head_groundings (pddl : Pddl) (predicates : list DerivedPredicate)
  : list Proposition :=
  flat_map (λ pred,
              mkProposition (DerivedPredicate_name pred) <$>
                ParameterGenerator (object_map_ pddl)
                                   (DerivedPredicate_parameters pred))
           predicates.

(** Modelled from the spec: §4.5, "(number of derived predicates × number
    of possible head groundings) passes", and the pass that finds nothing
    new. *)
Definition closure_bound (pddl : Pddl) (predicates : list DerivedPredicate)
  : nat :=
  S (length predicates * length (head_groundings pddl predicates)).

(** Modelled from the spec: §4.5, the combined operation
    [static bool DerivedPredicate::Apply(predicates, State* state)], which
    "returns whether anything changed". *)
Definition DerivedPredicate_Apply (pddl : Pddl)
    (predicates : list DerivedPredicate) (state : State)
  : Result (bool * State) :=
  closure_loop (closure_bound pddl predicates) pddl predicates state.

(** ** Construction ([src/pddl.cc], anonymous namespace) *)

(** What one run of [yyparse()] on a file produces: VAL's grammar stores a
    parsed domain in [current_analysis->the_domain], a parsed problem in
    [current_analysis->the_problem], and nothing when the text does not
    parse.  The parser itself is external; it is an argument.  That a run
    stores at most one of the two trees and leaves the other as it found it
    is an assumption on that parser, not something [pddl.cc] shows. *)
Inductive parse_category : Type :=
| parsed_domain (d : domain)
| parsed_problem (p : problem).

Abbreviation Parser := (string → option parse_category).

Definition yyparse (parser : Parser) (current_filename : string)
    (a : analysis) : analysis :=
  match parser current_filename with
  | Some (parsed_domain d) => mk_analysis (Some d) (the_problem a)
  | Some (parsed_problem p) => mk_analysis (the_domain a) (Some p)
  | None => a
  end.

Definition ParsePddl (parser : Parser) (filename_domain filename_problem : string)
  : Result analysis :=
  let analysis := mk_analysis None None in
  (* Parse domain *)
  let analysis := yyparse parser filename_domain analysis in
  if bool_decide (the_domain analysis = None) then
    Err (LoadError ("ParsePddl(): Unable to parse domain from file: "
                    +:+ filename_domain))
  else
  (* Parse problem *)
  let analysis := yyparse parser filename_problem analysis in
  if bool_decide (the_domain analysis = None) then
    Err (LoadError ("ParsePddl(): Unable to parse problem from file: "
                    +:+ filename_problem))
  else Ok analysis.

(** The order in which a range-[for] visits a [std::set<std::string>]:
    ascending by [std::less<std::string>], which compares the texts byte by
    byte, bytes as unsigned, a proper prefix first. *)
Definition string_le (s t : string) : Prop := String.leb s t = true.

#[global] Instance string_le_dec : RelDecision string_le.
Proof. intros s t. unfold string_le. apply _. Defined.

Definition std_set_order (str_state : gset string) : list string :=
  merge_sort string_le (elements str_state).

(** [State ParseState(const Pddl&, const std::set<std::string>&)]: each text
    is parsed by [Proposition(pddl, str_prop)] and emplaced, in the order of
    the set; the first text that fails to parse ends the loop with its
    error. *)
Definition ParseState (pddl : Pddl) (str_state : gset string) : Result State :=
  foldR (λ (state : State) str_prop,
           P ← Proposition_Parse pddl str_prop; Ok ({[P]} ∪ state))
        ∅ (std_set_order str_state).

Definition GetObjects (domain : domain) (problem : problem) : list Object :=
  let objects_1 := Object_CreateList (types domain) (constants domain) in
  let objects_2 := Object_CreateList (types domain) (objects problem) in
  objects_1 ++ objects_2.

(** [object_map[type].push_back(object)]: [operator[]] starts an absent key
    at the empty vector. *)
Definition CreateObjectTypeMap (objects : list Object) : ObjectTypeMap :=
  foldl (λ object_map object,
           foldl (λ (object_map : ObjectTypeMap) type,
                    <[type := (objects_of_type object_map type ++ [object])%list]>
                      object_map)
                 object_map (ListTypes object))
        ∅ objects.

Definition GetActions (domain : domain) : list Action :=
  Action_new <$> filter (λ op, op_class op = class_action) (ops domain).

Definition GetAxioms (domain : domain) : list AxiomRule :=
  mkAxiomRule <$> filter (λ op, op_class op = class_axiom) (ops domain).

Definition GetDerivedPredicates (domain : domain) : list DerivedPredicate :=
  DerivedPredicate_new <$> drvs domain.

Definition GetInitialState (domain : domain) (problem : problem) : State :=
  foldl (λ (initial_state : State) effect,
           let arguments := Object_new (types domain) <$> prop_args effect in
           {[mkProposition (prop_head effect) arguments]} ∪ initial_state)
        ∅ (add_effects (initial_state problem)).

(** The two file-local [Apply] overloads: the action's own [Apply], then the
    closure. *)
Definition Apply (pddl : Pddl) (state : State) (action : Action)
    (arguments : list Object) (predicates : list DerivedPredicate)
  : Result State :=
  next_state ← Action_Apply pddl action state arguments;
  st ← DerivedPredicate_Apply pddl predicates next_state;
  Ok st.2.

Definition Apply_inplace (pddl : Pddl) (action : Action)
    (arguments : list Object) (predicates : list DerivedPredicate)
    (state : State) : Result (bool * State) :=
  st ← Action_Apply_inplace pddl action arguments state;
  st' ← DerivedPredicate_Apply pddl predicates st.2;
  Ok (st.1 || st'.1, st'.2).

(** ** The façade ([namespace symbolic]) *)

(** [*analysis_->the_domain]: dereferencing a null pointer is undefined
    behaviour; the model stops there with [NullDereference]. *)
Definition deref {A} (p : option A) : Result A :=
  match p with
  | Some a => Ok a
  | None => Err NullDereference
  end.

(** The member initialiser list of [Pddl::Pddl]. *)
Definition Pddl_members (analysis_ : analysis) (domain_ : domain)
    (problem_ : problem) : Pddl :=
  let objects_ := GetObjects domain_ problem_ in
  {| analysis_ := analysis_;
     domain_ := domain_;
     problem_ := problem_;
     objects_ := objects_;
     object_map_ := CreateObjectTypeMap objects_;
     actions_ := GetActions domain_;
     axioms_ := GetAxioms domain_;
     derived_predicates_ := GetDerivedPredicates domain_;
     initial_state_ := GetInitialState domain_ problem_;
     goal_ := the_goal problem_ |}.

(** [Pddl::Pddl(domain_pddl, problem_pddl)]. *)
Definition Pddl_new (parser : Parser) (domain_pddl problem_pddl : string)
  : Result Pddl :=
  analysis_ ← ParsePddl parser domain_pddl problem_pddl;
  domain_ ← deref (the_domain analysis_);
  problem_ ← deref (the_problem analysis_);
  Ok (Pddl_members analysis_ domain_ problem_).

(** [std::set<std::string> Stringify(const State&)]. *)
Definition Stringify (state : State) : gset string :=
  set_map Proposition_to_string state.

Definition Stringify_actions (actions : list Action) : list string :=
  Action_name <$> actions.

Definition Stringify_arguments (arguments : list (list Object))
  : list (list string) :=
  (λ args : list Object, Object_name <$> args) <$> arguments.

Definition Stringify_objects (objects : list Object) : list string :=
  Object_name <$> objects.

Definition NextState (pddl : Pddl) (state : State) (action_call : string)
  : Result State :=
  '(action, arguments) ← Action_Parse pddl action_call;
  Apply pddl state action arguments (derived_predicates_ pddl).

Definition NextState_str (pddl : Pddl) (str_state : gset string)
    (action_call : string) : Result (gset string) :=
  state ← ParseState pddl str_state;
  '(action, arguments) ← Action_Parse pddl action_call;
  st ← Apply_inplace pddl action arguments (derived_predicates_ pddl) state;
  Ok (Stringify st.2).

Definition IsValidAction (pddl : Pddl) (state : State) (action_call : string)
  : Result bool :=
  '(action, arguments) ← Action_Parse pddl action_call;
  Action_IsValid pddl action state arguments.

Definition IsValidAction_str (pddl : Pddl) (str_state : gset string)
    (action_call : string) : Result bool :=
  state ← ParseState pddl str_state;
  IsValidAction pddl state action_call.

Definition IsValidTuple (pddl : Pddl) (state : State) (action_call : string)
    (next_state : State) : Result bool :=
  '(action, arguments) ← Action_Parse pddl action_call;
  valid ← Action_IsValid pddl action state arguments;
  if valid : bool then
    s ← Apply pddl state action arguments (derived_predicates_ pddl);
    Ok (bool_decide (s = next_state))
  else Ok false.

Definition IsValidTuple_str (pddl : Pddl) (str_state : gset string)
    (action_call : string) (str_next_state : gset string) : Result bool :=
  state ← ParseState pddl str_state;
  next_state ← ParseState pddl str_next_state;
  IsValidTuple pddl state action_call next_state.

Definition IsGoalSatisfied (pddl : Pddl) (str_state : gset string)
  : Result bool :=
  state ← ParseState pddl str_state;
  Goal_eval pddl state.

(** The loop of [Pddl::IsValidPlan], with [state] the local it mutates. *)
Fixpoint IsValidPlan_from (pddl : Pddl) (state : State)
    (action_skeleton : list string) : Result bool :=
  match action_skeleton with
  | [] => Goal_eval pddl state
  | action_call :: rest =>
      '(action, arguments) ← Action_Parse pddl action_call;
      valid ← Action_IsValid pddl action state arguments;
      if negb valid then Ok false
      else
        st ← Apply_inplace pddl action arguments (derived_predicates_ pddl)
                           state;
        IsValidPlan_from pddl st.2 rest
  end.

Definition IsValidPlan (pddl : Pddl) (action_skeleton : list string)
  : Result bool :=
  IsValidPlan_from pddl (initial_state_ pddl) action_skeleton.

Definition ListValidArguments (pddl : Pddl) (state : State) (action : Action)
  : Result (list (list Object)) :=
  filterR (Action_IsValid pddl action state)
          (ParameterGenerator (object_map_ pddl) (Action_parameters action)).

Definition ListValidArguments_str (pddl : Pddl) (str_state : gset string)
    (action_name : string) : Result (list (list string)) :=
  state ← ParseState pddl str_state;
  action ← Action_of_name pddl action_name;
  arguments ← ListValidArguments pddl state action;
  Ok (Stringify_arguments arguments).

Definition ListValidActions (pddl : Pddl) (state : State)
  : Result (list string) :=
  foldR (λ actions action,
           arguments ← ListValidArguments pddl state action;
           Ok (actions ++ (Action_to_string action <$> arguments))%list)
        [] (actions_ pddl).

Definition ListValidActions_str (pddl : Pddl) (state : gset string)
  : Result (list string) :=
  state' ← ParseState pddl state;
  ListValidActions pddl state'.

(** ** Specification-side definitions *)

(** Plan validity as the specification words it: fold [IsValidAction] and
    [NextState] (apply, then closure) over the texts, answer false at the
    first invalid action, and test the goal on the final state. *)
Fixpoint plan_fold (pddl : Pddl) (state : State) (plan : list string)
  : Result bool :=
  match plan with
  | [] => Goal_eval pddl state
  | action_call :: rest =>
      valid ← IsValidAction pddl state action_call;
      if valid : bool then
        state' ← NextState pddl state action_call;
        plan_fold pddl state' rest
      else Ok false
  end.

(** [plan_run pddl S plan S']: every action of [plan] is valid in the state
    reached so far, and [S'] is the state after the last one. *)
Inductive plan_run (pddl : Pddl) : State → list string → State → Prop :=
| plan_run_nil S : plan_run pddl S [] S
| plan_run_cons S action_call S1 rest S' :
    IsValidAction pddl S action_call = Ok true →
    NextState pddl S action_call = Ok S1 →
    plan_run pddl S1 rest S' →
    plan_run pddl S (action_call :: rest) S'.

(** States reachable from the initial state by [NextState]. *)
Inductive reachable (pddl : Pddl) : State → Prop :=
| reachable_initial : reachable pddl (initial_state_ pddl)
| reachable_next S action_call S' :
    reachable pddl S →
    NextState pddl S action_call = Ok S' →
    reachable pddl S'.

(** The argument tuples of the Parameter Generator for which the action's
    precondition holds, in generator order. *)
Definition valid_arguments (pddl : Pddl) (state : State) (action : Action)
  : list (list Object) :=
  filter (λ t, Action_IsValid pddl action state t = Ok true)
         (ParameterGenerator (object_map_ pddl) (Action_parameters action)).

(** The effect delta as the specification words it (§4.4): [Apply]
    "computes the effect delta" and "deltas are collected then merged".
    [effect_delta] collects, in the order of the walk, the additions and
    deletions of an effect list, conditions read in the pre-transition state
    [pre]; [merge_deltas] merges them into a state.  Neither looks at a
    precondition. *)
Inductive Delta : Type :=
| delta_add (P : Proposition)
| delta_delete (P : Proposition).

Definition merge_delta (state : State) (d : Delta) : State :=
  match d with
  | delta_add P => {[P]} ∪ state
  | delta_delete P => state ∖ {[P]}
  end.

Definition merge_deltas (state : State) (delta : list Delta) : State :=
  foldl merge_delta state delta.

Fixpoint effect_delta (pddl : Pddl) (pre : State) (effs : effect_lists)
    (σ : Substitution) (delta : list Delta) : Result (list Delta) :=
  delta ← foldR (λ ds p, P ← ground pddl σ p; Ok (ds ++ [delta_add P])%list)
                delta (add_effects effs);
  delta ← foldR (λ ds p, P ← ground pddl σ p; Ok (ds ++ [delta_delete P])%list)
                delta (del_effects effs);
  delta ← foldR (λ ds ce,
                   b ← Evaluate pddl ce.1 σ pre;
                   if b : bool then effect_delta pddl pre ce.2 σ ds else Ok ds)
                delta (cond_effects effs);
  foldR (λ ds fe,
           foldR (λ ds' t,
                    effect_delta pddl pre fe.2 (bind_arguments fe.1 t ++ σ) ds')
                 ds (ParameterGenerator (object_map_ pddl) fe.1))
        delta (forall_effects effs).

(** The states a façade hands out or reads: its initial state, the states
    [ParseState] returns, and their successors by [NextState]. *)
Inductive facade_state (pddl : Pddl) : State → Prop :=
| facade_initial : facade_state pddl (initial_state_ pddl)
| facade_parsed str_state S :
    ParseState pddl str_state = Ok S → facade_state pddl S
| facade_next S action_call S' :
    facade_state pddl S →
    NextState pddl S action_call = Ok S' →
    facade_state pddl S'.

(** The same action with another precondition. *)
Definition with_precondition (action : Action) (pre : goal) : Action :=
  {| Action_name := Action_name action;
     Action_parameters := Action_parameters action;
     Action_precondition := pre;
     Action_effects := Action_effects action |}.

(** The relation kept between the in-place walk and the pure walk. *)
Definition same_state (st : bool * State) (w : State) : Prop := st.2 = w.

(** ** Validated trees *)

(** The characters that structure the text form. *)
Definition delimiter (c : ascii) : bool :=
  Ascii.eqb c "("%char || Ascii.eqb c ")"%char || Ascii.eqb c ","%char
  || Ascii.eqb c " "%char.

Fixpoint no_delimiter (s : string) : bool :=
  match s with
  | EmptyString => true
  | String c s' => negb (delimiter c) && no_delimiter s'
  end.

(** A name as the lexer produces it: not empty, no delimiter inside. *)
Definition ident_ok (s : string) : bool :=
  negb (String.eqb s EmptyString) && no_delimiter s.

(** A symbol in scope: a variable bound by an enclosing parameter list, or a
    constant of the registry. *)
Definition wf_symbol (pddl : Pddl) (bound : list string)
    (sym : parameter_symbol) : bool :=
  match sym_kind sym with
  | var_symbol => bool_decide (getName sym ∈ bound)
  | const_symbol =>
      bool_decide (Object_new (types (domain_ pddl)) sym ∈ objects_ pddl)
  end.

Definition wf_proposition (pddl : Pddl) (bound : list string)
    (p : proposition) : bool :=
  ident_ok (prop_head p) && forallb (wf_symbol pddl bound) (prop_args p).

Fixpoint wf_goal (pddl : Pddl) (bound : list string) (g : goal) : bool :=
  match g with
  | simple_goal p => wf_proposition pddl bound p
  | conj_goal gs | disj_goal gs => forallb (wf_goal pddl bound) gs
  | neg_goal g' => wf_goal pddl bound g'
  | qfied_goal _ vars g' =>
      wf_goal pddl ((getName <$> vars) ++ bound)%list g'
  | imply_goal _ _ | timed_goal _ | comparison | constraint_goal
  | preference _ => false
  end.

Fixpoint wf_effects (pddl : Pddl) (bound : list string) (effs : effect_lists)
  : bool :=
  forallb (wf_proposition pddl bound) (add_effects effs)
  && forallb (wf_proposition pddl bound) (del_effects effs)
  && forallb (λ fe, wf_effects pddl ((getName <$> fe.1) ++ bound)%list fe.2)
             (forall_effects effs)
  && forallb (λ ce, wf_goal pddl bound ce.1 && wf_effects pddl bound ce.2)
             (cond_effects effs).

Definition wf_action (pddl : Pddl) (action : Action) : bool :=
  ident_ok (Action_name action)
  && wf_goal pddl (getName <$> Action_parameters action)
             (Action_precondition action)
  && wf_effects pddl (getName <$> Action_parameters action)
                (Action_effects action).

Definition wf_derived (pddl : Pddl) (pred : DerivedPredicate) : bool :=
  ident_ok (DerivedPredicate_name pred)
  && wf_goal pddl (getName <$> DerivedPredicate_parameters pred)
             (DerivedPredicate_body pred).

(** A proposition over the registry. *)
Definition registered (pddl : Pddl) (P : Proposition) : bool :=
  ident_ok (Proposition_name P)
  && forallb (λ o, bool_decide (o ∈ objects_ pddl)) (Proposition_arguments P).

(** A substitution that binds every name in scope, to registry objects. *)
Definition binds (pddl : Pddl) (σ : Substitution) (bound : list string) : Prop :=
  (∀ x, x ∈ bound → x ∈ σ.*1)
  ∧ Forall (λ b : string * Object, b.2 ∈ objects_ pddl) σ.

(** A state all of whose propositions satisfy [Q]; with [Q] the registry
    test, a state over the registry. *)
Definition state_over (Q : Proposition → Prop) (S : State) : Prop :=
  ∀ P, P ∈ S → Q P.

Definition state_registered (pddl : Pddl) (S : State) : Prop :=
  state_over (λ P, registered pddl P = true) S.

(** What a pass that started from [(false, S0)] has made of the state: it
    only grew, by head groundings, and the flag is raised only if it really
    grew. *)
Definition pass_invariant (Q : Proposition → Prop) (G S0 : State)
    (st : bool * State) : Prop :=
  S0 ⊆ st.2 ∧ st.2 ⊆ S0 ∪ G ∧ (st.1 = true → st.2 ≠ S0) ∧ state_over Q st.2.

(** A result other than the closure's fatal invariant violation. *)
Definition not_diverged {A} (r : Result A) : Prop := r ≠ Err ClosureDiverged.

(** What the parser and the type checker guarantee of a façade: object and
    action names are proper and pairwise distinct, the type index is the one
    built from the object list, the formulas and effects of the actions and
    derived predicates are supported and closed, and the initial state is
    over the registry. *)
Definition wf_pddl (pddl : Pddl) : bool :=
  bool_decide (NoDup (Object_name <$> objects_ pddl))
  && forallb (λ o, ident_ok (Object_name o)) (objects_ pddl)
  && bool_decide (object_map_ pddl = CreateObjectTypeMap (objects_ pddl))
  && bool_decide (NoDup (Action_name <$> actions_ pddl))
  && forallb (wf_action pddl) (actions_ pddl)
  && forallb (wf_derived pddl) (derived_predicates_ pddl)
  && forallb (registered pddl) (elements (initial_state_ pddl)).

(** ** A small domain

    A one-handed blocks world: types [block], [table]; constant
    [t1 - table]; objects [a b - block];
    action [pick-up(?b - block)] with precondition
    [(and (on-table ?b) (hand-empty))] and effects [(holding ?b)],
    [(not (on-table ?b))], [(not (hand-empty))];
    action [put-down(?b - block)] with precondition [(not (on-table ?b))]
    and effects [(on-table ?b)], [(hand-empty)], [(not (holding ?b))];
    derived predicate [(lifted ?b - block)] defined by [(holding ?b)];
    initially both blocks are on the table and the hand is empty; the goal
    is to hold [b] while [a] is on the table. *)
Module Blocks.

Definition block_type : pddl_type := mk_pddl_type "block" ["object"].
Definition table_type : pddl_type := mk_pddl_type "table" ["object"].

Definition t1 : parameter_symbol := mk_symbol const_symbol "t1" ["table"].
Definition a : parameter_symbol := mk_symbol const_symbol "a" ["block"].
Definition b : parameter_symbol := mk_symbol const_symbol "b" ["block"].
Definition var_b : parameter_symbol := mk_symbol var_symbol "?b" ["block"].

Definition on_table (x : parameter_symbol) : proposition :=
  mk_proposition "on-table" [x].
Definition holding (x : parameter_symbol) : proposition :=
  mk_proposition "holding" [x].
Definition lifted (x : parameter_symbol) : proposition :=
  mk_proposition "lifted" [x].
Definition hand_empty : proposition := mk_proposition "hand-empty" [].

Definition pick_up : operator_ :=
  {| op_class := class_action;
     op_name := "pick-up";
     op_parameters := [var_b];
     op_precondition :=
       conj_goal [simple_goal (on_table var_b); simple_goal hand_empty];
     op_effects :=
       mk_effect_lists [holding var_b] [on_table var_b; hand_empty] [] [] |}.

Definition put_down : operator_ :=
  {| op_class := class_action;
     op_name := "put-down";
     op_parameters := [var_b];
     op_precondition := neg_goal (simple_goal (on_table var_b));
     op_effects :=
       mk_effect_lists [on_table var_b; hand_empty] [holding var_b] [] [] |}.

Definition the_domain : domain :=
  {| types := [block_type; table_type];
     constants := [t1];
     ops := [pick_up; put_down];
     drvs := [mk_derivation_rule (lifted var_b)
                                 (simple_goal (holding var_b))] |}.

Definition the_problem : problem :=
  {| objects := [a; b];
     initial_state :=
       mk_effect_lists [on_table a; on_table b; hand_empty] [] [] [];
     the_goal := conj_goal [simple_goal (holding b);
                            simple_goal (on_table a)] |}.

(** The external parser on the two files of this domain. *)
Definition parser : Parser :=
  λ filename,
    if String.eqb filename "domain.pddl" then Some (parsed_domain the_domain)
    else if String.eqb filename "problem.pddl"
         then Some (parsed_problem the_problem)
         else None.

Definition pddl : Pddl :=
  Pddl_members (mk_analysis (Some the_domain) (Some the_problem))
               the_domain the_problem.

Definition obj (sym : parameter_symbol) : Object :=
  Object_new (types the_domain) sym.

Definition fact (name : string) (sym : parameter_symbol) : Proposition :=
  mkProposition name [obj sym].

(** The state after [pick-up(a)] from the initial state. *)
Definition holding_a : State :=
  {[fact "on-table" b; fact "holding" a; fact "lifted" a]}.

(** What [NextState] makes of [holding_a] under [pick-up(b)]. *)
Definition holding_both : State :=
  {[fact "holding" a; fact "lifted" a; fact "holding" b; fact "lifted" b]}.

(** The same domain with [a] already in the hand and the goal that [a] is
    lifted, a derived fact. *)
Definition held_problem : problem :=
  {| objects := [a; b];
     initial_state := mk_effect_lists [holding a; on_table b] [] [] [];
     the_goal := simple_goal (lifted a) |}.

Definition held_pddl : Pddl :=
  Pddl_members (mk_analysis (Some the_domain) (Some held_problem))
               the_domain held_problem.

End Blocks.

(** ** The scenario of the specification (§8), as written there *)
Module Scenario.

Definition a : parameter_symbol := mk_symbol const_symbol "a" ["block"].
Definition b : parameter_symbol := mk_symbol const_symbol "b" ["block"].
Definition var_b : parameter_symbol := mk_symbol var_symbol "?b" ["block"].

Definition on_table (x : parameter_symbol) : proposition :=
  mk_proposition "on-table" [x].

Definition the_domain : domain :=
  {| types := [mk_pddl_type "block" ["object"]];
     constants := [];
     ops := [mk_operator class_action "pick-up" [var_b]
               (simple_goal (on_table var_b))
               (mk_effect_lists [] [on_table var_b] [] [])];
     drvs := [] |}.

Definition the_problem : problem :=
  {| objects := [a; b];
     initial_state := mk_effect_lists [on_table a; on_table b] [] [] [];
     the_goal := conj_goal [neg_goal (simple_goal (on_table a));
                            neg_goal (simple_goal (on_table b))] |}.

Definition pddl : Pddl :=
  Pddl_members (mk_analysis (Some the_domain) (Some the_problem))
               the_domain the_problem.

Definition on_table_fact (x : parameter_symbol) : Proposition :=
  mkProposition "on-table" [Object_new (types the_domain) x].

End Scenario.


(** ** More of the façade's behaviour: auxiliary definitions *)

#[global] Instance symbol_kind_eq_dec : EqDecision symbol_kind.
Proof. solve_decision. Defined.
#[global] Instance parameter_symbol_eq_dec : EqDecision parameter_symbol.
Proof. solve_decision. Defined.

(** No opening parenthesis inside: all that the head of a call needs for
    the call to be read back. *)
Fixpoint no_open (s : string) : bool :=
  match s with
  | EmptyString => true
  | String c s' => negb (Ascii.eqb c "("%char) && no_open s'
  end.

(** What a walk over effects keeps of the flag and the state it started
    from: while the flag is down the state is the one it started from. *)
Definition flag_invariant (S0 : State) (st : bool * State) : Prop :=
  st.1 = false → st.2 = S0.

(** Variants of the blocks problem. *)
Module Variants.

(** The initial effects of [Blocks.the_problem] in another order, one of
    them twice, with effects of the other three kinds beside them. *)
Definition shuffled_problem : problem :=
  {| objects := [Blocks.a; Blocks.b];
     initial_state :=
       mk_effect_lists
         [Blocks.hand_empty; Blocks.on_table Blocks.b;
          Blocks.on_table Blocks.a; Blocks.on_table Blocks.b]
         [Blocks.on_table Blocks.a]
         [([Blocks.var_b],
           mk_effect_lists [Blocks.holding Blocks.var_b] [] [] [])]
         [(simple_goal Blocks.hand_empty,
           mk_effect_lists [Blocks.holding Blocks.a] [] [] [])];
     the_goal := the_goal Blocks.the_problem |}.

(** A state text in free form, the same fact in two spellings, and the
    state it denotes. *)
Definition free_text : gset string :=
  {["on(a,b)"; "on(a,   b)"; "hand-empty()"]}.

Definition free_state : State :=
  {[mkProposition "on" [Blocks.obj Blocks.a; Blocks.obj Blocks.b];
    mkProposition "hand-empty" []]}.

(** The state after [pick-up(a)] and [put-down(a)] from the initial state
    of the blocks problem: [a] is back on the table and stays lifted. *)
Definition after_put_down : State :=
  {[Blocks.fact "on-table" Blocks.a; Blocks.fact "on-table" Blocks.b;
    mkProposition "hand-empty" []; Blocks.fact "lifted" Blocks.a]}.

(** The blocks domain with an axiom and an operator of a third kind beside
    its two actions. *)
Definition gravity : operator_ :=
  {| op_class := class_axiom;
     op_name := "gravity";
     op_parameters := [Blocks.var_b];
     op_precondition := simple_goal (Blocks.holding Blocks.var_b);
     op_effects := mk_effect_lists [] [] [] [] |}.

Definition move_slowly : operator_ :=
  {| op_class := class_other;
     op_name := "move-slowly";
     op_parameters := [Blocks.var_b];
     op_precondition := simple_goal (Blocks.on_table Blocks.var_b);
     op_effects := mk_effect_lists [Blocks.holding Blocks.var_b] [] [] [] |}.

Definition mixed_domain : domain :=
  {| types := types Blocks.the_domain;
     constants := constants Blocks.the_domain;
     ops := [gravity; Blocks.pick_up; move_slowly; Blocks.put_down];
     drvs := drvs Blocks.the_domain |}.

Definition mixed_pddl : Pddl :=
  Pddl_members (mk_analysis (Some mixed_domain) (Some Blocks.the_problem))
               mixed_domain Blocks.the_problem.

End Variants.
(** * Properties *)

(** ** The [Result] monad *)

Lemma bind_Ok {A B} (m : Result A) (f : A → Result B) (b : B) :
  m ≫= f = Ok b ↔ ∃ a, m = Ok a ∧ f a = Ok b.
Proof.
  destruct m as [a|e]; simpl; split.
  - intros H. by exists a.
  - by intros (a' & [= ->] & H).
  - intros [=].
  - by intros (a' & [=] & _).
Qed.

(** Splits a successful bind in a hypothesis into its two steps. *)
Ltac bind_inv H :=
  let a := fresh "r" in
  let E := fresh "E" in
  apply bind_Ok in H as (a & E & H); simpl in H.

(** Two loops over the same list that stay related step by step end up
    related. *)
Lemma foldR_rel {A B C} (R : B → C → Prop) (f : B → A → Result B)
    (g : C → A → Result C) (l : list A) :
  Forall (λ x, ∀ b c, R b c →
                 match f b x, g c x with
                 | Ok b', Ok c' => R b' c'
                 | Err e, Err e' => e = e'
                 | _, _ => False
                 end) l →
  ∀ b c, R b c →
    match foldR f b l, foldR g c l with
    | Ok b', Ok c' => R b' c'
    | Err e, Err e' => e = e'
    | _, _ => False
    end.
Proof.
  induction 1 as [|x l Hx _ IH]; intros b c Hbc; simpl; [done|].
  specialize (Hx b c Hbc).
  destruct (f b x) as [b'|e], (g c x) as [c'|e']; simpl; try done.
  by apply IH.
Qed.

(** ** Nested induction on effects *)

Lemma effect_lists_nested_ind (P : effect_lists → Prop) :
  (∀ adds dels foralls conds,
     Forall (λ fe, P fe.2) foralls →
     Forall (λ ce, P ce.2) conds →
     P (mk_effect_lists adds dels foralls conds)) →
  ∀ effs, P effs.
Proof.
  intros step. fix IH 1. intros [adds dels foralls conds]. apply step.
  - induction foralls as [|[vars e] l IHl]; constructor; [apply IH | apply IHl].
  - induction conds as [|[c e] l IHl]; constructor; [apply IH | apply IHl].
Qed.

(** ** The two forms of [Apply] agree *)

Lemma apply_effects_inplace_state pddl pre effs :
  ∀ σ st w, same_state st w →
    match apply_effects_inplace pddl pre effs σ st,
          apply_effects pddl pre effs σ w with
    | Ok st', Ok w' => same_state st' w'
    | Err e, Err e' => e = e'
    | _, _ => False
    end.
Proof.
  induction effs as [adds dels foralls conds IHf IHc]
    using effect_lists_nested_ind.
  intros σ st w Hst. simpl.
  pose proof (foldR_rel same_state
    (λ st p, P ← ground pddl σ p;
             Ok (st.1 || bool_decide (P ∉ st.2), {[P]} ∪ st.2))
    (λ w p, P ← ground pddl σ p; Ok ({[P]} ∪ w)) adds) as Hadd.
  lapply Hadd; [clear Hadd; intros Hadd|].
  2:{ apply Forall_forall. intros p _ b c Hbc.
      destruct (ground pddl σ p); simpl; [|done].
      unfold same_state in *; simpl; by rewrite Hbc. }
  specialize (Hadd st w Hst).
  destruct (foldR _ st adds) as [st1|e1], (foldR _ w adds) as [w1|e1'];
    simpl; try done.
  pose proof (foldR_rel same_state
    (λ st p, P ← ground pddl σ p;
             Ok (st.1 || bool_decide (P ∈ st.2), st.2 ∖ {[P]}))
    (λ w p, P ← ground pddl σ p; Ok (w ∖ {[P]})) dels) as Hdel.
  lapply Hdel; [clear Hdel; intros Hdel|].
  2:{ apply Forall_forall. intros p _ b c Hbc.
      destruct (ground pddl σ p); simpl; [|done].
      unfold same_state in *; simpl; by rewrite Hbc. }
  specialize (Hdel st1 w1 Hadd).
  destruct (foldR _ st1 dels) as [st2|e2], (foldR _ w1 dels) as [w2|e2'];
    simpl; try done.
  pose proof (foldR_rel same_state
    (λ st ce, b ← Evaluate pddl ce.1 σ pre;
              if b : bool then apply_effects_inplace pddl pre ce.2 σ st
              else Ok st)
    (λ w ce, b ← Evaluate pddl ce.1 σ pre;
             if b : bool then apply_effects pddl pre ce.2 σ w else Ok w)
    conds) as Hcond.
  lapply Hcond; [clear Hcond; intros Hcond|].
  2:{ eapply Forall_impl; [exact IHc|]. intros ce IH b c Hbc. simpl.
      destruct (Evaluate pddl ce.1 σ pre) as [[]|]; simpl; try done.
      by apply IH. }
  specialize (Hcond st2 w2 Hdel).
  destruct (foldR _ st2 conds) as [st3|e3], (foldR _ w2 conds) as [w3|e3'];
    simpl; try done.
  apply (foldR_rel same_state); [|done].
  eapply Forall_impl; [exact IHf|]. intros fe IH b c Hbc. simpl.
  apply (foldR_rel same_state); [|done].
  apply Forall_forall. intros t _ b' c' Hbc'. by apply IH.
Qed.

Lemma Action_Apply_inplace_state pddl action arguments state :
  snd <$> Action_Apply_inplace pddl action arguments state
  = Action_Apply pddl action state arguments.
Proof.
  unfold Action_Apply_inplace, Action_Apply.
  pose proof (apply_effects_inplace_state pddl state (Action_effects action)
    (bind_arguments (Action_parameters action) arguments)
    (false, state) state eq_refl) as H.
  destruct (apply_effects_inplace _ _ _ _ _) as [st|e],
           (apply_effects _ _ _ _ _) as [w|e']; simpl; try done.
  - by rewrite H.
  - by rewrite H.
Qed.

Lemma Apply_inplace_state pddl action arguments predicates state :
  snd <$> Apply_inplace pddl action arguments predicates state
  = Apply pddl state action arguments predicates.
Proof.
  unfold Apply_inplace, Apply.
  rewrite <- Action_Apply_inplace_state.
  destruct (Action_Apply_inplace _ _ _ _) as [st|e]; simpl; [|done].
  by destruct (DerivedPredicate_Apply _ _ _).
Qed.

(** ** The effects of an action are its merged delta *)

Lemma merge_deltas_snoc (state : State) (delta : list Delta) (d : Delta) :
  merge_deltas state (delta ++ [d]) = merge_delta (merge_deltas state delta) d.
Proof. unfold merge_deltas. by rewrite foldl_app. Qed.

Lemma apply_effects_delta pddl pre effs (work0 : State) :
  ∀ σ w ds, w = merge_deltas work0 ds →
    match apply_effects pddl pre effs σ w,
          effect_delta pddl pre effs σ ds with
    | Ok w', Ok ds' => w' = merge_deltas work0 ds'
    | Err e, Err e' => e = e'
    | _, _ => False
    end.
Proof.
  induction effs as [adds dels foralls conds IHf IHc]
    using effect_lists_nested_ind.
  intros σ w ds Hw. simpl.
  pose proof (foldR_rel (λ (w : State) ds, w = merge_deltas work0 ds)
    (λ w p, P ← ground pddl σ p; Ok ({[P]} ∪ w))
    (λ ds p, P ← ground pddl σ p; Ok (ds ++ [delta_add P])%list) adds) as Hadd.
  lapply Hadd; [clear Hadd; intros Hadd|].
  2:{ apply Forall_forall. intros p _ b c ->.
      destruct (ground pddl σ p); simpl; [|done].
      by rewrite merge_deltas_snoc. }
  specialize (Hadd w ds Hw).
  destruct (foldR _ w adds) as [w1|e1], (foldR _ ds adds) as [ds1|e1'];
    simpl; try done.
  pose proof (foldR_rel (λ (w : State) ds, w = merge_deltas work0 ds)
    (λ w p, P ← ground pddl σ p; Ok (w ∖ {[P]}))
    (λ ds p, P ← ground pddl σ p; Ok (ds ++ [delta_delete P])%list) dels)
    as Hdel.
  lapply Hdel; [clear Hdel; intros Hdel|].
  2:{ apply Forall_forall. intros p _ b c ->.
      destruct (ground pddl σ p); simpl; [|done].
      by rewrite merge_deltas_snoc. }
  specialize (Hdel w1 ds1 Hadd).
  destruct (foldR _ w1 dels) as [w2|e2], (foldR _ ds1 dels) as [ds2|e2'];
    simpl; try done.
  pose proof (foldR_rel (λ (w : State) ds, w = merge_deltas work0 ds)
    (λ w ce, b ← Evaluate pddl ce.1 σ pre;
             if b : bool then apply_effects pddl pre ce.2 σ w else Ok w)
    (λ ds ce, b ← Evaluate pddl ce.1 σ pre;
              if b : bool then effect_delta pddl pre ce.2 σ ds else Ok ds)
    conds) as Hcond.
  lapply Hcond; [clear Hcond; intros Hcond|].
  2:{ eapply Forall_impl; [exact IHc|]. intros ce IH b c Hbc. simpl.
      destruct (Evaluate pddl ce.1 σ pre) as [[]|]; simpl; try done.
      by apply IH. }
  specialize (Hcond w2 ds2 Hdel).
  destruct (foldR _ w2 conds) as [w3|e3], (foldR _ ds2 conds) as [ds3|e3'];
    simpl; try done.
  apply (foldR_rel (λ (w : State) ds, w = merge_deltas work0 ds)); [|done].
  eapply Forall_impl; [exact IHf|]. intros fe IH b c Hbc. simpl.
  apply (foldR_rel (λ (w : State) ds, w = merge_deltas work0 ds)); [|done].
  apply Forall_forall. intros t _ b' c' Hbc'. by apply IH.
Qed.

Lemma Action_Apply_delta pddl action (state : State) arguments :
  Action_Apply pddl action state arguments
  = (delta ← effect_delta pddl state (Action_effects action)
               (bind_arguments (Action_parameters action) arguments) [];
     Ok (merge_deltas state delta)).
Proof.
  unfold Action_Apply.
  pose proof (apply_effects_delta pddl state (Action_effects action) state
    (bind_arguments (Action_parameters action) arguments) state [] eq_refl)
    as H.
  destruct (apply_effects _ _ _ _ _) as [w|e], (effect_delta _ _ _ _ _)
    as [ds|e']; simpl; try done; by subst.
Qed.

(** The effects of an action without conditional and quantified effects:
    the add effects inserted, then the delete effects removed. *)
Lemma foldR_add_effects pddl σ (adds : list proposition) :
  ∀ (A : list Proposition) (w : State),
    mapR (ground pddl σ) adds = Ok A →
    foldR (λ w p, P ← ground pddl σ p; Ok ({[P]} ∪ w)) w adds
    = Ok (w ∪ list_to_set A).
Proof.
  induction adds as [|p adds IH]; intros A w H; simpl in *.
  - injection H as <-. f_equal. set_solver.
  - bind_inv H. bind_inv H. injection H as <-. rewrite E. simpl.
    rewrite (IH _ _ E0). f_equal. set_solver.
Qed.

Lemma foldR_del_effects pddl σ (dels : list proposition) :
  ∀ (D : list Proposition) (w : State),
    mapR (ground pddl σ) dels = Ok D →
    foldR (λ w p, P ← ground pddl σ p; Ok (w ∖ {[P]})) w dels
    = Ok (w ∖ list_to_set D).
Proof.
  induction dels as [|p dels IH]; intros D w H; simpl in *.
  - injection H as <-. f_equal. set_solver.
  - bind_inv H. bind_inv H. injection H as <-. rewrite E. simpl.
    rewrite (IH _ _ E0). f_equal. set_solver.
Qed.

Lemma Action_Apply_strips pddl action (state : State) arguments A D :
  cond_effects (Action_effects action) = [] →
  forall_effects (Action_effects action) = [] →
  mapR (ground pddl (bind_arguments (Action_parameters action) arguments))
       (add_effects (Action_effects action)) = Ok A →
  mapR (ground pddl (bind_arguments (Action_parameters action) arguments))
       (del_effects (Action_effects action)) = Ok D →
  Action_Apply pddl action state arguments
  = Ok ((state ∪ list_to_set A) ∖ list_to_set D).
Proof.
  unfold Action_Apply.
  destruct (Action_effects action) as [adds dels foralls conds]. simpl.
  intros -> -> HA HD.
  rewrite (foldR_add_effects _ _ _ _ _ HA). simpl.
  by rewrite (foldR_del_effects _ _ _ _ _ HD).
Qed.

(** ** Plans *)

Lemma IsValidPlan_from_fold pddl plan :
  ∀ state, IsValidPlan_from pddl state plan = plan_fold pddl state plan.
Proof.
  induction plan as [|action_call rest IH]; intros state; simpl; [done|].
  unfold IsValidAction, NextState.
  destruct (Action_Parse pddl action_call) as [[action arguments]|e];
    simpl; [|done].
  destruct (Action_IsValid pddl action state arguments) as [[]|e];
    simpl; try done.
  rewrite <- Apply_inplace_state.
  destruct (Apply_inplace _ _ _ _ _) as [st|e]; simpl; [apply IH | done].
Qed.

Lemma plan_fold_true pddl plan :
  ∀ state,
    plan_fold pddl state plan = Ok true ↔
    ∃ state', plan_run pddl state plan state' ∧ Goal_eval pddl state' = Ok true.
Proof.
  induction plan as [|action_call rest IH]; intros state; simpl.
  - split.
    + intros H. exists state. split; [constructor | done].
    + intros (state' & Hrun & Hgoal). by inversion Hrun; subst.
  - split.
    + intros H. bind_inv H. destruct r; [|done].
      bind_inv H. apply IH in H as (state' & Hrun & Hgoal).
      exists state'. split; [|done]. by econstructor.
    + intros (state' & Hrun & Hgoal).
      inversion Hrun as [|? ? S1 ? ? Hvalid Hnext Hrest]; subst.
      rewrite Hvalid. simpl. rewrite Hnext. simpl. apply IH. by exists state'.
Qed.

Lemma plan_fold_short_circuit pddl done action_call rest :
  ∀ state state',
    plan_run pddl state done state' →
    IsValidAction pddl state' action_call = Ok false →
    plan_fold pddl state (done ++ action_call :: rest) = Ok false.
Proof.
  induction done as [|t done IH]; intros state state' Hrun Hinvalid; simpl.
  - inversion Hrun; subst. by rewrite Hinvalid.
  - inversion Hrun as [|? ? S1 ? ? Hvalid Hnext Hrest]; subst.
    rewrite Hvalid. simpl. rewrite Hnext. simpl. by eapply IH.
Qed.

(** C1.  [IsValidPlan] is the fold of the specification: it agrees with
    [plan_fold] (validity check, then apply and closure, from the initial
    state, goal test at the end) on every plan, errors included; it answers
    true exactly when every action is valid in the state reached so far and
    the final state satisfies the goal; and it answers false at the first
    invalid action whatever follows it in the plan. *)
Theorem IsValidPlan_plan_equivalence (pddl : Pddl) (plan : list string) :
  IsValidPlan pddl plan = plan_fold pddl (initial_state_ pddl) plan
  ∧ (IsValidPlan pddl plan = Ok true ↔
     ∃ final, plan_run pddl (initial_state_ pddl) plan final
              ∧ Goal_eval pddl final = Ok true)
  ∧ (∀ done action_call rest state,
       plan = (done ++ action_call :: rest)%list →
       plan_run pddl (initial_state_ pddl) done state →
       IsValidAction pddl state action_call = Ok false →
       IsValidPlan pddl plan = Ok false).
Proof.
  unfold IsValidPlan. rewrite IsValidPlan_from_fold.
  split; [done|]. split; [apply plan_fold_true|].
  intros done action_call rest state -> Hrun Hinvalid.
  by eapply plan_fold_short_circuit.
Qed.

(** ** Single transitions *)

(** C2.  [IsValidTuple(S, t, S')] answers true exactly when the call parses
    to an action whose precondition holds in [S] and the state obtained from
    [S] by the action's effects ([Action::Apply]) and then the closure
    ([DerivedPredicate::Apply]) is [S']; said with the façade's own
    operations, when [IsValidAction(S, t)] holds and [NextState(S, t)] is
    [S']. *)
Theorem IsValidTuple_iff (pddl : Pddl) (state : State) (action_call : string)
    (next_state : State) :
  (IsValidTuple pddl state action_call next_state = Ok true ↔
   ∃ action arguments applied closed,
     Action_Parse pddl action_call = Ok (action, arguments)
     ∧ Action_IsValid pddl action state arguments = Ok true
     ∧ Action_Apply pddl action state arguments = Ok applied
     ∧ DerivedPredicate_Apply pddl (derived_predicates_ pddl) applied
       = Ok closed
     ∧ closed.2 = next_state)
  ∧ (IsValidTuple pddl state action_call next_state = Ok true ↔
     IsValidAction pddl state action_call = Ok true
     ∧ NextState pddl state action_call = Ok next_state).
Proof.
  assert (IsValidTuple pddl state action_call next_state = Ok true ↔
          IsValidAction pddl state action_call = Ok true
          ∧ NextState pddl state action_call = Ok next_state) as Hfacade.
  { unfold IsValidTuple, IsValidAction, NextState.
    destruct (Action_Parse pddl action_call) as [[action arguments]|e]; simpl.
    2:{ split; [done | by intros [? _]]. }
    destruct (Action_IsValid pddl action state arguments) as [[]|e]; simpl.
    - destruct (Apply _ _ _ _ _) as [s|e]; simpl.
      + split.
        * intros [= H]. apply bool_decide_eq_true in H. by subst.
        * intros [_ [= ->]]. f_equal. by apply bool_decide_eq_true.
      + split; [done | by intros [_ ?]].
    - split; [done | by intros [? _]].
    - split; [done | by intros [? _]]. }
  split; [|exact Hfacade]. rewrite Hfacade.
  unfold IsValidAction, NextState, Apply. split.
  - intros [Hvalid Hnext].
    destruct (Action_Parse pddl action_call) as [[action arguments]|e] eqn:Hp;
      simpl in *; [|done].
    destruct (Action_Apply pddl action state arguments) as [applied|e] eqn:Ha;
      simpl in Hnext; [|done].
    destruct (DerivedPredicate_Apply pddl (derived_predicates_ pddl) applied)
      as [closed|e] eqn:Hc; simpl in Hnext; [|done].
    injection Hnext as <-. by exists action, arguments, applied, closed.
  - intros (action & arguments & applied & closed & Hp & Hv & Ha & Hc & <-).
    rewrite Hp. simpl. rewrite Hv, Ha. simpl. by rewrite Hc.
Qed.



(** ** Construction *)

Lemma GetInitialState_fold (tys : list pddl_type) (effects : list proposition)
    (X : State) :
  foldl (λ (initial_state : State) effect,
           let arguments := Object_new tys <$> prop_args effect in
           {[mkProposition (prop_head effect) arguments]} ∪ initial_state)
        X effects
  = list_to_set
      ((λ effect, mkProposition (prop_head effect)
                                (Object_new tys <$> prop_args effect))
         <$> effects) ∪ X.
Proof.
  revert X. induction effects as [|effect effects IH]; intros X; simpl.
  - set_solver.
  - rewrite IH. set_solver.
Qed.

Lemma GetInitialState_list_to_set (d : domain) (p : problem) :
  GetInitialState d p
  = list_to_set
      ((λ effect, mkProposition (prop_head effect)
                                (Object_new (types d) <$> prop_args effect))
         <$> add_effects (initial_state p)).
Proof.
  unfold GetInitialState. rewrite GetInitialState_fold. set_solver.
Qed.

Lemma Pddl_new_members parser domain_pddl problem_pddl pddl :
  Pddl_new parser domain_pddl problem_pddl = Ok pddl →
  pddl = Pddl_members (analysis_ pddl) (domain_ pddl) (problem_ pddl).
Proof.
  unfold Pddl_new. intros H. bind_inv H. bind_inv H. bind_inv H.
  by injection H as <-.
Qed.

(** C10.  On the empty plan [IsValidPlan] evaluates the goal on the initial
    state, which is exactly the set of the problem's initial add effects:
    no action is applied and no closure is run. *)
Theorem IsValidPlan_empty (parser : Parser) (domain_pddl problem_pddl : string)
    (pddl : Pddl) :
  Pddl_new parser domain_pddl problem_pddl = Ok pddl →
  initial_state_ pddl
  = list_to_set
      ((λ effect,
          mkProposition (prop_head effect)
            (Object_new (types (domain_ pddl)) <$> prop_args effect))
         <$> add_effects (initial_state (problem_ pddl)))
  ∧ IsValidPlan pddl [] = Goal_eval pddl (initial_state_ pddl)
  ∧ (IsValidPlan pddl [] = Ok true ↔
     Evaluate pddl (the_goal (problem_ pddl)) [] (initial_state_ pddl)
     = Ok true).
Proof.
  intros Hnew. apply Pddl_new_members in Hnew.
  split; [|split]; [| done |].
  - rewrite Hnew at 1. simpl. apply GetInitialState_list_to_set.
  - change (IsValidPlan pddl [])
      with (Evaluate pddl (goal_ pddl) [] (initial_state_ pddl)).
    assert (goal_ pddl = the_goal (problem_ pddl)) as ->; [|done].
    by rewrite Hnew at 1.
Qed.

(** [yyparse] never clears [the_domain]. *)
Lemma yyparse_keeps_domain parser filename a :
  the_domain a ≠ None → the_domain (yyparse parser filename a) ≠ None.
Proof.
  unfold yyparse. intros H. by destruct (parser filename) as [[d|p]|].
Qed.

(** The second check of [ParsePddl] tests [the_domain] again, so the error
    that names the problem file is never raised. *)
Lemma ParsePddl_error_names_domain parser filename_domain filename_problem e :
  ParsePddl parser filename_domain filename_problem = Err e →
  e = LoadError ("ParsePddl(): Unable to parse domain from file: "
                 +:+ filename_domain).
Proof.
  unfold ParsePddl. case_bool_decide as Hd; [by intros [= <-]|].
  case_bool_decide as Hd'; [|done].
  by apply (yyparse_keeps_domain parser filename_problem) in Hd.
Qed.

(** C8 (the code at the failing input).  With a domain file that parses and
    a problem file that does not, [ParsePddl] raises nothing and hands back
    a tree without a problem; the constructor then dereferences the null
    [the_problem]. *)
Theorem ParsePddl_unparsed_problem (parser : Parser)
    (filename_domain filename_problem : string) (d : domain) :
  parser filename_domain = Some (parsed_domain d) →
  parser filename_problem = None →
  ParsePddl parser filename_domain filename_problem
  = Ok (mk_analysis (Some d) None)
  ∧ Pddl_new parser filename_domain filename_problem = Err NullDereference.
Proof.
  intros Hd Hp.
  assert (ParsePddl parser filename_domain filename_problem
          = Ok (mk_analysis (Some d) None)) as Hparse.
  { unfold ParsePddl, yyparse. rewrite Hd. simpl. by rewrite Hp. }
  split; [done|]. unfold Pddl_new. by rewrite Hparse.
Qed.

Lemma ParsePddl_unparsed_problem_witness :
  Blocks.parser "domain.pddl" = Some (parsed_domain Blocks.the_domain)
  ∧ Blocks.parser "missing.pddl" = None
  ∧ ParsePddl Blocks.parser "domain.pddl" "missing.pddl"
    = Ok (mk_analysis (Some Blocks.the_domain) None)
  ∧ Pddl_new Blocks.parser "domain.pddl" "missing.pddl" = Err NullDereference.
Proof.
  split; [reflexivity|]. split; [reflexivity|].
  apply (ParsePddl_unparsed_problem Blocks.parser "domain.pddl" "missing.pddl"
           Blocks.the_domain); reflexivity.
Defined.

(** ** The object list and the type index *)

Lemma union_first_elem_of {A} `{EqDecision A} (l : list A) :
  ∀ seen x, x ∈ union_first seen l ↔ x ∈ l ∧ x ∉ seen.
Proof.
  induction l as [|y l IH]; intros seen x; simpl.
  - set_solver.
  - destruct (decide (y ∈ seen)) as [Hy|Hy].
    + rewrite IH, elem_of_cons. split; [tauto|].
      intros [[->|Hx] Hseen]; [done | tauto].
    + rewrite elem_of_cons, IH, not_elem_of_cons, elem_of_cons.
      destruct (decide (x = y)) as [->|Hne]; tauto.
Qed.

Lemma union_first_NoDup {A} `{EqDecision A} (l : list A) :
  ∀ seen, NoDup (union_first seen l).
Proof.
  induction l as [|y l IH]; intros seen; simpl; [constructor|].
  destruct (decide (y ∈ seen)); [apply IH|].
  constructor; [|apply IH]. rewrite union_first_elem_of, not_elem_of_cons.
  tauto.
Qed.

Lemma Object_new_ListTypes_NoDup tys sym : NoDup (ListTypes (Object_new tys sym)).
Proof. apply union_first_NoDup. Qed.

(** How often [object] is filed under [ty]: once per occurrence of [ty] in
    its [ListTypes]. *)
Lemma CreateObjectTypeMap_inner (object : Object) (ty : string)
    (tys : list string) :
  ∀ m : ObjectTypeMap,
    objects_of_type
      (foldl (λ (object_map : ObjectTypeMap) type,
                <[type := (objects_of_type object_map type ++ [object])%list]>
                  object_map) m tys) ty
    = (objects_of_type m ty
       ++ ((λ _, object) <$> filter (λ ty', ty' = ty) tys))%list.
Proof.
  induction tys as [|ty0 tys IH]; intros m; simpl.
  - by rewrite app_nil_r.
  - rewrite IH. rewrite filter_cons. unfold objects_of_type at 1.
    destruct (decide (ty0 = ty)) as [->|Hne].
    + rewrite lookup_insert_eq. simpl. by rewrite <- app_assoc.
    + by rewrite lookup_insert_ne.
Qed.

Lemma CreateObjectTypeMap_outer (ty : string) (objs : list Object) :
  ∀ m : ObjectTypeMap,
    objects_of_type
      (foldl (λ object_map object,
                foldl (λ (object_map : ObjectTypeMap) type,
                         <[type := (objects_of_type object_map type
                                    ++ [object])%list]> object_map)
                      object_map (ListTypes object)) m objs) ty
    = (objects_of_type m ty
       ++ flat_map (λ o, (λ _, o) <$> filter (λ ty', ty' = ty) (ListTypes o))
                   objs)%list.
Proof.
  induction objs as [|o objs IH]; intros m; simpl.
  - by rewrite app_nil_r.
  - rewrite IH, CreateObjectTypeMap_inner. by rewrite <- app_assoc.
Qed.

Lemma filter_eq_NoDup (ty : string) (tys : list string) :
  NoDup tys →
  filter (λ ty', ty' = ty) tys = if decide (ty ∈ tys) then [ty] else [].
Proof.
  induction 1 as [|ty0 tys Hnotin Hnd IH]; [done|].
  rewrite filter_cons.
  destruct (decide (ty0 = ty)) as [->|Hne].
  - rewrite decide_True by left.
    destruct (decide (ty ∈ tys)); [done|]. by rewrite IH.
  - rewrite IH. destruct (decide (ty ∈ tys)) as [Hin|Hnin].
    + rewrite decide_True; [done | by right].
    + rewrite decide_False; [done|]. set_solver.
Qed.

(** The index of a type is the sub-list of the objects that satisfy it, in
    the order of the object list. *)
Lemma CreateObjectTypeMap_lookup (objs : list Object) (ty : string) :
  Forall (λ o, NoDup (ListTypes o)) objs →
  objects_of_type (CreateObjectTypeMap objs) ty
  = filter (λ o, ty ∈ ListTypes o) objs.
Proof.
  intros Hnd. unfold CreateObjectTypeMap.
  rewrite CreateObjectTypeMap_outer. unfold objects_of_type at 1.
  rewrite lookup_empty. simpl.
  induction Hnd as [|o objs Ho _ IH]; [done|]. simpl.
  rewrite IH, filter_cons, (filter_eq_NoDup ty (ListTypes o) Ho).
  by destruct (decide (ty ∈ ListTypes o)).
Qed.

Lemma GetObjects_ListTypes_NoDup (d : domain) (p : problem) :
  Forall (λ o, NoDup (ListTypes o)) (GetObjects d p).
Proof.
  unfold GetObjects, Object_CreateList. apply Forall_app. split.
  - apply Forall_fmap, Forall_forall. intros sym _.
    apply Object_new_ListTypes_NoDup.
  - apply Forall_fmap, Forall_forall. intros sym _.
    apply Object_new_ListTypes_NoDup.
Qed.

(** C9.  The object list is the domain constants followed by the problem
    objects, and the type index files, under each type name, exactly the
    objects of that list that satisfy the type, in list order: every object
    is found under every type it satisfies. *)
Theorem object_list_and_type_index (d : domain) (p : problem) (ty : string) :
  GetObjects d p
  = ((Object_new (types d) <$> constants d)
     ++ (Object_new (types d) <$> objects p))%list
  ∧ objects_of_type (CreateObjectTypeMap (GetObjects d p)) ty
    = filter (λ o, ty ∈ ListTypes o) (GetObjects d p)
  ∧ (∀ o, o ∈ objects_of_type (CreateObjectTypeMap (GetObjects d p)) ty ↔
          o ∈ GetObjects d p ∧ ty ∈ ListTypes o)
  ∧ objects_ (Pddl_members (mk_analysis (Some d) (Some p)) d p)
    = GetObjects d p
  ∧ object_map_ (Pddl_members (mk_analysis (Some d) (Some p)) d p)
    = CreateObjectTypeMap (GetObjects d p).
Proof.
  assert (objects_of_type (CreateObjectTypeMap (GetObjects d p)) ty
          = filter (λ o, ty ∈ ListTypes o) (GetObjects d p)) as Hindex.
  { apply CreateObjectTypeMap_lookup, GetObjects_ListTypes_NoDup. }
  split; [done|]. split; [done|]. split; [|done].
  intros o. rewrite Hindex, list_elem_of_filter. tauto.
Qed.

(** ** The text form and its inverse *)

Lemma append_empty (s : string) : EmptyString +:+ s = s.
Proof. reflexivity. Qed.

Lemma append_String (c : ascii) (x s : string) :
  String c x +:+ s = String c (x +:+ s).
Proof. reflexivity. Qed.

Lemma append_empty_r (s : string) : s +:+ EmptyString = s.
Proof.
  induction s as [|c s IH]; [done|]. by rewrite append_String, IH.
Qed.

Lemma split_head_append (h rest : string) :
  no_delimiter h = true →
  split_head (h +:+ String "(" rest) = Some (h, rest).
Proof.
  induction h as [|c h IH].
  - intros _. by rewrite append_empty.
  - cbn [no_delimiter]. intros [Hc Hh]%andb_prop. rewrite append_String.
    cbn [split_head]. rewrite (IH Hh).
    by destruct (Ascii.eqb_spec c "("%char) as [->|_].
Qed.

Lemma strip_close_append (inner : string) :
  strip_close (inner +:+ String ")" EmptyString) = Some inner.
Proof.
  induction inner as [|c inner IH]; [done|].
  rewrite append_String. cbn [strip_close]. rewrite IH.
  destruct inner; [done|]. by rewrite append_String.
Qed.

Lemma split_commas_nonempty (s : string) : split_commas s ≠ [].
Proof.
  destruct s as [|c s]; cbn [split_commas]; [done|].
  destruct (Ascii.eqb c ","%char); [done|]. by destruct (split_commas s).
Qed.

Lemma split_commas_append (x s : string) :
  no_delimiter x = true →
  split_commas (x +:+ s)
  = match split_commas s with
    | t :: ts => (x +:+ t) :: ts
    | [] => []
    end.
Proof.
  pose proof (split_commas_nonempty s) as Hs.
  induction x as [|c x IH].
  - intros _. rewrite append_empty. by destruct (split_commas s).
  - cbn [no_delimiter]. intros [Hc Hx]%andb_prop. rewrite append_String.
    cbn [split_commas]. rewrite (IH Hx).
    destruct (Ascii.eqb_spec c ","%char) as [->|_]; [done|].
    by destruct (split_commas s).
Qed.

Lemma split_commas_ident (x : string) :
  no_delimiter x = true → split_commas x = [x].
Proof.
  induction x as [|c x IH]; simpl; [done|].
  intros [Hc Hx]%andb_prop. rewrite (IH Hx).
  by destruct (Ascii.eqb_spec c ","%char) as [->|_].
Qed.

Lemma skip_blanks_ident (x : string) :
  no_delimiter x = true → skip_blanks x = x.
Proof.
  destruct x as [|c x]; simpl; [done|].
  intros [Hc _]%andb_prop.
  by destruct (Ascii.eqb_spec c " "%char) as [->|_].
Qed.

Lemma ident_ok_no_delimiter (x : string) :
  ident_ok x = true → no_delimiter x = true.
Proof. by intros [_ ?]%andb_prop. Qed.

Lemma ident_ok_nonempty (x : string) : ident_ok x = true → x ≠ EmptyString.
Proof. intros [H _]%andb_prop ->. done. Qed.

Lemma split_commas_concat (names : list string) :
  Forall (λ n, ident_ok n = true) names →
  names ≠ [] →
  skip_blanks <$> split_commas (String.concat ", " names) = names.
Proof.
  induction 1 as [|n names Hn Hnames IH]; [done|]. intros _.
  destruct names as [|n' names].
  - cbn [String.concat].
    rewrite split_commas_ident by by apply ident_ok_no_delimiter.
    cbn [fmap list_fmap].
    by rewrite skip_blanks_ident by by apply ident_ok_no_delimiter.
  - change (String.concat ", " (n :: n' :: names))
      with (n +:+ String "," (String " " (String.concat ", " (n' :: names)))).
    rewrite split_commas_append by by apply ident_ok_no_delimiter.
    specialize (IH ltac:(done)).
    cbn [split_commas]. cbn [Ascii.eqb Bool.eqb].
    destruct (split_commas (String.concat ", " (n' :: names))) as [|t ts];
      [done|].
    rewrite fmap_cons in IH. rewrite !fmap_cons.
    injection IH as Ht Hts. rewrite Hts. f_equal.
    + rewrite append_empty_r.
      by apply skip_blanks_ident, ident_ok_no_delimiter.
    + f_equal. cbn [skip_blanks]. cbn [Ascii.eqb Bool.eqb]. done.
Qed.

Lemma concat_nonempty (n : string) (names : list string) :
  n ≠ EmptyString → String.concat ", " (n :: names) ≠ EmptyString.
Proof.
  intros Hn. destruct n as [|c n]; [done|]. by destruct names.
Qed.

(** Reading back the canonical text of a call. *)
Lemma ParseCall_to_string (name : string) (arguments : list Object) :
  no_delimiter name = true →
  Forall (λ o, ident_ok (Object_name o) = true) arguments →
  ParseCall (call_to_string name arguments)
  = Ok (name, Object_name <$> arguments).
Proof.
  intros Hname Hargs. unfold ParseCall, call_to_string.
  change (name +:+ "(" +:+ ?x) with (name +:+ String "(" x).
  rewrite split_head_append by done.
  change (?x +:+ ")") with (x +:+ String ")" EmptyString).
  rewrite strip_close_append.
  destruct arguments as [|o arguments]; [done|].
  assert (String.concat ", " (Object_name <$> o :: arguments) ≠ EmptyString)
    as Hne.
  { apply concat_nonempty, ident_ok_nonempty. by inversion Hargs. }
  destruct (String.concat ", " (Object_name <$> o :: arguments)) as [|c s] eqn:E;
    [done|].
  rewrite <- E. rewrite split_commas_concat; [done | | done].
  by apply Forall_fmap.
Qed.

(** ** The registry *)

Lemma find_NoDup {A} (f : A → string) (l : list A) (x : A) :
  NoDup (f <$> l) → x ∈ l →
  List.find (λ y, bool_decide (f y = f x)) l = Some x.
Proof.
  induction l as [|y l IH]; simpl; [by intros _ ?%elem_of_nil|].
  intros [Hy Hnd]%NoDup_cons [->|Hx]%elem_of_cons.
  - by rewrite bool_decide_eq_true_2.
  - rewrite bool_decide_eq_false_2; [by apply IH|].
    intros Heq. apply Hy. rewrite Heq. by apply list_elem_of_fmap_2.
Qed.

Lemma find_Some_elem_of {A} (p : A → bool) (l : list A) (x : A) :
  List.find p l = Some x → x ∈ l ∧ p x = true.
Proof.
  induction l as [|y l IH]; simpl; [done|].
  destruct (p y) eqn:Hp.
  - intros [= ->]. split; [left | done].
  - intros [Hx Hpx]%IH. split; [by right | done].
Qed.

Lemma Object_Parse_name pddl (o : Object) :
  NoDup (Object_name <$> objects_ pddl) → o ∈ objects_ pddl →
  Object_Parse pddl (Object_name o) = Ok o.
Proof.
  intros Hnd Ho. unfold Object_Parse. by rewrite find_NoDup.
Qed.

Lemma Object_Parse_registered pddl token o :
  Object_Parse pddl token = Ok o → o ∈ objects_ pddl ∧ Object_name o = token.
Proof.
  unfold Object_Parse.
  destruct (List.find _ _) as [o'|] eqn:E; [|done]. intros [= ->].
  apply find_Some_elem_of in E as [Ho Hname].
  by apply bool_decide_eq_true in Hname.
Qed.

Lemma mapR_Object_Parse_names pddl (arguments : list Object) :
  NoDup (Object_name <$> objects_ pddl) →
  Forall (λ o, o ∈ objects_ pddl) arguments →
  mapR (Object_Parse pddl) (Object_name <$> arguments) = Ok arguments.
Proof.
  intros Hnd. induction 1 as [|o arguments Ho _ IH]; [done|].
  rewrite fmap_cons. cbn [mapR].
  rewrite Object_Parse_name by done. simpl. by rewrite IH.
Qed.

Lemma mapR_Object_Parse_registered pddl tokens :
  ∀ arguments,
    mapR (Object_Parse pddl) tokens = Ok arguments →
    Forall (λ o, o ∈ objects_ pddl) arguments
    ∧ Object_name <$> arguments = tokens.
Proof.
  induction tokens as [|token tokens IH]; intros arguments; simpl.
  - by intros [= <-].
  - intros H. bind_inv H. bind_inv H. injection H as <-.
    apply Object_Parse_registered in E as [Ho <-].
    apply IH in E0 as [Hall <-]. split; [by constructor | done].
Qed.

(** ** Propositions and states through text *)

Lemma registered_spec pddl (P : Proposition) :
  registered pddl P = true ↔
  ident_ok (Proposition_name P) = true
  ∧ Forall (λ o, o ∈ objects_ pddl) (Proposition_arguments P).
Proof.
  unfold registered. rewrite andb_true_iff, forallb_forall, Forall_forall.
  split; intros [Hname Hargs]; (split; [done|]); intros o Ho.
  - apply list_elem_of_In, Hargs in Ho. by apply bool_decide_eq_true in Ho.
  - apply bool_decide_eq_true, Hargs. by apply list_elem_of_In.
Qed.

Lemma Proposition_Parse_to_string pddl (P : Proposition) :
  NoDup (Object_name <$> objects_ pddl) →
  Forall (λ o, ident_ok (Object_name o) = true) (objects_ pddl) →
  registered pddl P = true →
  Proposition_Parse pddl (Proposition_to_string P) = Ok P.
Proof.
  intros Hnd Hident [Hname Hargs]%registered_spec.
  unfold Proposition_Parse, Proposition_to_string.
  rewrite ParseCall_to_string.
  - simpl. rewrite mapR_Object_Parse_names by done. simpl. by destruct P.
  - by apply ident_ok_no_delimiter.
  - rewrite Forall_forall in Hargs, Hident |- *.
    intros o Ho. by apply Hident, Hargs.
Qed.

Lemma elem_of_std_set_order (t : string) (str_state : gset string) :
  t ∈ std_set_order str_state ↔ t ∈ str_state.
Proof.
  unfold std_set_order. by rewrite merge_sort_Permutation, elem_of_elements.
Qed.

Lemma ParseState_fold_inj pddl (S : State) (P P0 : Proposition) :
  (∀ P, P ∈ S → Proposition_Parse pddl (Proposition_to_string P) = Ok P) →
  P ∈ S → P0 ∈ S → Proposition_to_string P = Proposition_to_string P0 →
  P = P0.
Proof.
  intros Hround HP HP0 Heq.
  pose proof (Hround P HP) as H1. pose proof (Hround P0 HP0) as H2.
  rewrite Heq in H1. rewrite H1 in H2. by injection H2.
Qed.

(** Parsing a list of texts that are the texts of members of [S], each of
    which reads back as itself, collects exactly those members. *)
Lemma ParseState_fold pddl (S : State) (texts : list string) :
  (∀ P, P ∈ S → Proposition_Parse pddl (Proposition_to_string P) = Ok P) →
  Forall (λ text, ∃ P, P ∈ S ∧ text = Proposition_to_string P) texts →
  ∀ X : State,
    ∃ Y : State,
      foldR (λ (state : State) str_prop,
               P ← Proposition_Parse pddl str_prop; Ok ({[P]} ∪ state))
            X texts = Ok Y
      ∧ ∀ P, P ∈ Y ↔ P ∈ X ∨ (P ∈ S ∧ Proposition_to_string P ∈ texts).
Proof.
  intros Hround. induction 1 as [|text texts (P0 & HP0 & ->) _ IH]; intros X.
  - exists X. split; [done|]. intros P. rewrite elem_of_nil. tauto.
  - cbn [foldR]. rewrite (Hround P0 HP0). simpl.
    destruct (IH ({[P0]} ∪ X)) as (Y & HY & Hmem). exists Y. split; [done|].
    intros P. rewrite Hmem, elem_of_union, elem_of_singleton, elem_of_cons.
    split.
    + intros [[Heq|HX]|[HS Hin]]; [|tauto|tauto].
      subst P. right. split; [done | by left].
    + intros [HX|[HS [Heq|Hin]]]; [tauto| |tauto].
      left. left. by apply (ParseState_fold_inj pddl S).
Qed.

Lemma ParseState_Stringify_round pddl (S : State) :
  (∀ P, P ∈ S → Proposition_Parse pddl (Proposition_to_string P) = Ok P) →
  ParseState pddl (Stringify S) = Ok S.
Proof.
  intros Hround. unfold ParseState, Stringify.
  destruct (ParseState_fold pddl S
              (std_set_order
                 (set_map (D := gset string) Proposition_to_string S))
              Hround) with (X := (∅ : State)) as (Y & HY & Hmem).
  { apply Forall_forall. intros text Htext.
    apply elem_of_std_set_order, elem_of_map in Htext as (P & -> & HP).
    by exists P. }
  rewrite HY. f_equal. apply set_eq. intros P. rewrite Hmem.
  rewrite elem_of_std_set_order, elem_of_map. split.
  - intros [[]%elem_of_empty|[HP _]]. done.
  - intros HP. right. split; [done|]. by exists P.
Qed.

(** ** Validated façades *)

Lemma forallb_Forall {A} (p : A → bool) (l : list A) :
  forallb p l = true ↔ Forall (λ x, p x = true) l.
Proof.
  rewrite forallb_forall, Forall_forall.
  split; intros H x Hx; apply H; by apply list_elem_of_In.
Qed.

Lemma wf_pddl_spec pddl :
  wf_pddl pddl = true →
  NoDup (Object_name <$> objects_ pddl)
  ∧ Forall (λ o, ident_ok (Object_name o) = true) (objects_ pddl)
  ∧ object_map_ pddl = CreateObjectTypeMap (objects_ pddl)
  ∧ NoDup (Action_name <$> actions_ pddl)
  ∧ Forall (λ a, wf_action pddl a = true) (actions_ pddl)
  ∧ Forall (λ d, wf_derived pddl d = true) (derived_predicates_ pddl)
  ∧ (∀ P, P ∈ initial_state_ pddl → registered pddl P = true).
Proof.
  unfold wf_pddl. rewrite !andb_true_iff, !bool_decide_eq_true, !forallb_Forall.
  intros [[[[[[H1 H2] H3] H4] H5] H6] H8]. repeat split; try done.
  intros P HP. rewrite Forall_forall in H8. by apply H8, elem_of_elements.
Qed.

(** Everything filed in the type index is in the object list. *)
Lemma CreateObjectTypeMap_elem_of (objs : list Object) (ty : string) (o : Object) :
  o ∈ objects_of_type (CreateObjectTypeMap objs) ty → o ∈ objs.
Proof.
  unfold CreateObjectTypeMap. rewrite CreateObjectTypeMap_outer.
  unfold objects_of_type at 1. rewrite lookup_empty. simpl.
  rewrite list_elem_of_In, in_flat_map.
  intros (o' & Ho' & Hin). apply list_elem_of_In in Hin.
  apply list_elem_of_fmap in Hin as (? & -> & _). by apply list_elem_of_In.
Qed.

Lemma product_spec {A} (ls : list (list A)) :
  ∀ t, t ∈ product ls ↔ Forall2 (λ x l, x ∈ l) t ls.
Proof.
  induction ls as [|l ls IH]; intros t; simpl.
  - rewrite list_elem_of_singleton. split; [by intros -> | by inversion 1].
  - rewrite list_elem_of_In, in_flat_map. split.
    + intros (x & Hx & Ht). apply list_elem_of_In in Ht.
      apply list_elem_of_fmap in Ht as (t' & -> & Ht'). constructor.
      * by apply list_elem_of_In.
      * by apply IH.
    + inversion 1 as [|x ? t' ? Hx Ht']; subst. exists x. split.
      * by apply list_elem_of_In.
      * apply list_elem_of_In, list_elem_of_fmap. exists t'.
        split; [done | by apply IH].
Qed.

Lemma ParameterGenerator_spec object_map params t :
  t ∈ ParameterGenerator object_map params →
  length t = length params
  ∧ Forall (λ o, ∃ ty, o ∈ objects_of_type object_map ty) t.
Proof.
  unfold ParameterGenerator. rewrite product_spec. intros H.
  split.
  - apply Forall2_length in H. by rewrite length_fmap in H.
  - rewrite Forall2_fmap_r in H. induction H as [|o p t ps Ho _ IH];
      constructor; [|done].
    unfold param_objects in Ho. apply union_first_elem_of in Ho as [Ho _].
    apply list_elem_of_In, in_flat_map in Ho as (ty & _ & Ho).
    exists ty. by apply list_elem_of_In.
Qed.

Lemma ParameterGenerator_registered pddl params t :
  object_map_ pddl = CreateObjectTypeMap (objects_ pddl) →
  t ∈ ParameterGenerator (object_map_ pddl) params →
  length t = length params ∧ Forall (λ o, o ∈ objects_ pddl) t.
Proof.
  intros Hmap [Hlen Hobjs]%ParameterGenerator_spec. split; [done|].
  eapply Forall_impl; [exact Hobjs|]. intros o [ty Ho]. rewrite Hmap in Ho.
  by eapply CreateObjectTypeMap_elem_of.
Qed.

(** ** Substitutions *)

Lemma find_binding (σ : Substitution) (x : string) :
  x ∈ σ.*1 →
  ∃ b, List.find (λ b, bool_decide (b.1 = x)) σ = Some b ∧ b ∈ σ.
Proof.
  induction σ as [|b σ IH]; simpl; [by intros ?%elem_of_nil|].
  intros [->|Hx]%elem_of_cons.
  - exists b. rewrite bool_decide_eq_true_2 by done. split; [done | left].
  - destruct (bool_decide (b.1 = x)).
    + exists b. split; [done | left].
    + destruct (IH Hx) as (b' & Hfind & Hin). exists b'.
      split; [done | by right].
Qed.

Lemma bind_arguments_names params arguments :
  length arguments = length params →
  (bind_arguments params arguments).*1 = getName <$> params.
Proof.
  intros Hlen. unfold bind_arguments. apply fst_zip.
  rewrite length_fmap. lia.
Qed.

Lemma bind_arguments_objects pddl params arguments :
  Forall (λ o, o ∈ objects_ pddl) arguments →
  Forall (λ b : string * Object, b.2 ∈ objects_ pddl)
         (bind_arguments params arguments).
Proof.
  intros Hargs. unfold bind_arguments. apply Forall_forall.
  intros [x o] Hin. apply elem_of_zip_r in Hin. simpl.
  rewrite Forall_forall in Hargs. by apply Hargs.
Qed.

(** ** Evaluation of validated formulas never fails *)

Lemma goal_nested_ind (P : goal → Prop) :
  (∀ p, P (simple_goal p)) →
  (∀ gs, Forall P gs → P (conj_goal gs)) →
  (∀ gs, Forall P gs → P (disj_goal gs)) →
  (∀ g, P g → P (neg_goal g)) →
  (∀ q vars g, P g → P (qfied_goal q vars g)) →
  (∀ a c, P (imply_goal a c)) →
  (∀ g, P (timed_goal g)) →
  P comparison →
  P constraint_goal →
  (∀ g, P (preference g)) →
  ∀ g, P g.
Proof.
  intros Hs Hc Hd Hn Hq Hi Ht Hcmp Hcon Hp. fix IH 1. intros [p|gs|gs|g|q vars g|a c|g| | |g].
  - apply Hs.
  - apply Hc. induction gs as [|g gs IHgs]; constructor; [apply IH | apply IHgs].
  - apply Hd. induction gs as [|g gs IHgs]; constructor; [apply IH | apply IHgs].
  - apply Hn, IH.
  - apply Hq, IH.
  - apply Hi.
  - apply Ht.
  - apply Hcmp.
  - apply Hcon.
  - apply Hp.
Qed.

Lemma mapR_total {A B} (f : A → Result B) (Q : B → Prop) (l : list A) :
  Forall (λ x, ∃ y, f x = Ok y ∧ Q y) l →
  ∃ ys, mapR f l = Ok ys ∧ Forall Q ys ∧ length ys = length l.
Proof.
  induction 1 as [|x l (y & Hy & HQ) _ (ys & Hys & HQs & Hlen)]; simpl.
  - by exists [].
  - rewrite Hy. simpl. rewrite Hys. simpl. exists (y :: ys).
    split; [done|]. split; [by constructor | simpl; by rewrite Hlen].
Qed.

Lemma allR_total {A} (f : A → Result bool) (l : list A) :
  Forall (λ x, ∃ b, f x = Ok b) l → ∃ b, allR f l = Ok b.
Proof.
  induction 1 as [|x l [b Hb] _ [b' Hb']]; simpl; [by exists true|].
  rewrite Hb. simpl. destruct b; [by exists b' | by exists false].
Qed.

Lemma anyR_total {A} (f : A → Result bool) (l : list A) :
  Forall (λ x, ∃ b, f x = Ok b) l → ∃ b, anyR f l = Ok b.
Proof.
  induction 1 as [|x l [b Hb] _ [b' Hb']]; simpl; [by exists false|].
  rewrite Hb. simpl. destruct b; [by exists true | by exists b'].
Qed.

Lemma binds_extend pddl σ bound vars t :
  object_map_ pddl = CreateObjectTypeMap (objects_ pddl) →
  binds pddl σ bound →
  t ∈ ParameterGenerator (object_map_ pddl) vars →
  binds pddl (bind_arguments vars t ++ σ) ((getName <$> vars) ++ bound).
Proof.
  intros Hmap [Hnames Hobjs] [Hlen Ht]%ParameterGenerator_registered; [|done].
  split.
  - intros x. rewrite fmap_app, bind_arguments_names by done.
    rewrite !elem_of_app. intros [?|?]; [by left | right; by apply Hnames].
  - apply Forall_app. split; [by apply bind_arguments_objects | done].
Qed.

Lemma binds_arguments pddl params arguments :
  length arguments = length params →
  Forall (λ o, o ∈ objects_ pddl) arguments →
  binds pddl (bind_arguments params arguments) (getName <$> params).
Proof.
  intros Hlen Hargs. split.
  - intros x. by rewrite bind_arguments_names.
  - by apply bind_arguments_objects.
Qed.

Lemma resolve_wf pddl σ bound sym :
  binds pddl σ bound →
  wf_symbol pddl bound sym = true →
  ∃ o, resolve pddl σ sym = Ok o ∧ o ∈ objects_ pddl.
Proof.
  intros [Hnames Hobjs]. unfold wf_symbol, resolve.
  destruct (sym_kind sym); intros Hwf%bool_decide_eq_true.
  - destruct (find_binding σ (getName sym)) as (b & -> & Hb);
      [by apply Hnames|].
    exists b.2. split; [done|]. rewrite Forall_forall in Hobjs. by apply Hobjs.
  - by eexists.
Qed.

Lemma ground_wf pddl σ bound p :
  binds pddl σ bound →
  wf_proposition pddl bound p = true →
  ∃ P, ground pddl σ p = Ok P ∧ registered pddl P = true.
Proof.
  intros Hσ [Hhead Hargs]%andb_prop. apply forallb_Forall in Hargs.
  unfold ground.
  destruct (mapR_total (resolve pddl σ) (λ o, o ∈ objects_ pddl) (prop_args p))
    as (arguments & -> & Hobjs & _).
  { eapply Forall_impl; [exact Hargs|]. intros sym. by apply resolve_wf. }
  simpl. eexists. split; [done|]. by apply registered_spec.
Qed.

Lemma Evaluate_wf pddl (state : State) (g : goal) :
  object_map_ pddl = CreateObjectTypeMap (objects_ pddl) →
  ∀ σ bound,
    binds pddl σ bound → wf_goal pddl bound g = true →
    ∃ b, Evaluate pddl g σ state = Ok b.
Proof.
  intros Hmap.
  induction g as [p|gs IH|gs IH|g IH|q vars g IH|a c|g| | |g]
    using goal_nested_ind; intros σ bound Hσ Hwf; simpl in Hwf; try done.
  - simpl. destruct (ground_wf pddl σ bound p Hσ Hwf) as (P & -> & _).
    by eexists.
  - simpl. apply allR_total. apply forallb_Forall in Hwf.
    rewrite Forall_forall in IH, Hwf |- *. intros g Hg. by eapply IH; eauto.
  - simpl. apply anyR_total. apply forallb_Forall in Hwf.
    rewrite Forall_forall in IH, Hwf |- *. intros g Hg. by eapply IH; eauto.
  - simpl. destruct (IH σ bound Hσ Hwf) as [b ->]. by eexists.
  - destruct q; simpl; [apply allR_total | apply anyR_total];
      apply Forall_forall; intros t Ht;
      (eapply IH; [by apply binds_extend | done]).
Qed.

Lemma head_groundings_elem_of pddl predicates pred t :
  pred ∈ predicates →
  t ∈ ParameterGenerator (object_map_ pddl) (DerivedPredicate_parameters pred) →
  mkProposition (DerivedPredicate_name pred) t
  ∈ (list_to_set (head_groundings pddl predicates) : State).
Proof.
  intros Hpred Ht. apply elem_of_list_to_set. unfold head_groundings.
  apply list_elem_of_In, in_flat_map. exists pred.
  split; [by apply list_elem_of_In|].
  apply list_elem_of_In, list_elem_of_fmap. by exists t.
Qed.

Lemma size_list_to_set_le (l : list Proposition) :
  (size (list_to_set l : State) ≤ length l)%nat.
Proof.
  induction l as [|P l IH].
  { rewrite list_to_set_nil, size_empty. simpl. lia. }
  rewrite list_to_set_cons, size_union_alt, size_singleton. simpl.
  pose proof (subseteq_size (list_to_set l ∖ {[P]}) (list_to_set l : State)
                ltac:(set_solver)).
  lia.
Qed.

(** ** The closure never runs out of passes *)

Lemma bind_not_diverged {A B} (m : Result A) (f : A → Result B) :
  not_diverged m → (∀ a, m = Ok a → not_diverged (f a)) →
  not_diverged (m ≫= f).
Proof.
  unfold not_diverged.
  destruct m as [a|e]; simpl; [intros _ H; by apply H|].
  intros H _ [= ->]. by apply H.
Qed.

Lemma mapR_not_diverged {A B} (f : A → Result B) (l : list A) :
  Forall (λ x, not_diverged (f x)) l → not_diverged (mapR f l).
Proof.
  induction 1 as [|x l Hx _ IH]; simpl; [done|].
  apply bind_not_diverged; [done|]. intros y _.
  apply bind_not_diverged; [done|]. done.
Qed.

Lemma allR_not_diverged {A} (f : A → Result bool) (l : list A) :
  Forall (λ x, not_diverged (f x)) l → not_diverged (allR f l).
Proof.
  induction 1 as [|x l Hx _ IH]; simpl; [done|].
  apply bind_not_diverged; [done|]. by intros [] _.
Qed.

Lemma anyR_not_diverged {A} (f : A → Result bool) (l : list A) :
  Forall (λ x, not_diverged (f x)) l → not_diverged (anyR f l).
Proof.
  induction 1 as [|x l Hx _ IH]; simpl; [done|].
  apply bind_not_diverged; [done|]. by intros [] _.
Qed.

Lemma foldR_inv_not_diverged {A B} (I : B → Prop) (f : B → A → Result B)
    (l : list A) :
  Forall (λ x, ∀ b, I b →
                 not_diverged (f b x) ∧ ∀ b', f b x = Ok b' → I b') l →
  ∀ b, I b →
    not_diverged (foldR f b l) ∧ ∀ b', foldR f b l = Ok b' → I b'.
Proof.
  induction 1 as [|x l Hx _ IH]; intros b Hb; simpl.
  - split; [done|]. by intros b' [= <-].
  - destruct (Hx b Hb) as [Hnd Hinv].
    destruct (f b x) as [b1|e]; simpl; [by apply IH, Hinv | done].
Qed.

Lemma ground_not_diverged pddl σ p : not_diverged (ground pddl σ p).
Proof.
  unfold ground. apply bind_not_diverged; [|done].
  apply mapR_not_diverged, Forall_forall. intros sym _. unfold resolve.
  destruct (sym_kind sym); [|done]. by destruct (List.find _ σ).
Qed.

Lemma Evaluate_not_diverged pddl (state : State) (g : goal) :
  ∀ σ, not_diverged (Evaluate pddl g σ state).
Proof.
  induction g as [p|gs IH|gs IH|g IH|q vars g IH|a c|g| | |g]
    using goal_nested_ind; intros σ; simpl; try done.
  - apply bind_not_diverged; [apply ground_not_diverged | done].
  - apply allR_not_diverged. eapply Forall_impl; [exact IH|]. by intros g Hg.
  - apply anyR_not_diverged. eapply Forall_impl; [exact IH|]. by intros g Hg.
  - specialize (IH σ). by destruct (Evaluate pddl g σ state).
  - destruct q; [apply allR_not_diverged | apply anyR_not_diverged];
      apply Forall_forall; intros t _; apply IH.
Qed.

Lemma apply_effects_not_diverged pddl (pre : State) (effs : effect_lists) :
  ∀ σ work, not_diverged (apply_effects pddl pre effs σ work).
Proof.
  induction effs as [adds dels foralls conds IHf IHc]
    using effect_lists_nested_ind.
  intros σ work.
  cbn [apply_effects add_effects del_effects cond_effects forall_effects].
  apply bind_not_diverged.
  { apply (foldR_inv_not_diverged (λ _, True)); [|done].
    apply Forall_forall. intros p _ w _. split; [|done].
    apply bind_not_diverged; [apply ground_not_diverged | done]. }
  intros w1 _. apply bind_not_diverged.
  { apply (foldR_inv_not_diverged (λ _, True)); [|done].
    apply Forall_forall. intros p _ w _. split; [|done].
    apply bind_not_diverged; [apply ground_not_diverged | done]. }
  intros w2 _. apply bind_not_diverged.
  { apply (foldR_inv_not_diverged (λ _, True)); [|done].
    eapply Forall_impl; [exact IHc|]. intros ce IH w _. split; [|done].
    apply bind_not_diverged; [apply Evaluate_not_diverged|].
    intros [] _; [apply IH | done]. }
  intros w3 _.
  apply (foldR_inv_not_diverged (λ _, True)); [|done].
  eapply Forall_impl; [exact IHf|]. intros fe IH w _. split; [|done].
  apply (foldR_inv_not_diverged (λ _, True)); [|done].
  apply Forall_forall. intros t _ w' _. split; [apply IH | done].
Qed.

Lemma DerivedPredicate_derive_invariant pddl (G S0 : State)
    (pred : DerivedPredicate) :
  (∀ t, t ∈ ParameterGenerator (object_map_ pddl)
                               (DerivedPredicate_parameters pred) →
        mkProposition (DerivedPredicate_name pred) t ∈ G) →
  ∀ st, pass_invariant (λ _, True) G S0 st →
    not_diverged (DerivedPredicate_derive pddl st pred)
    ∧ ∀ st', DerivedPredicate_derive pddl st pred = Ok st' →
             pass_invariant (λ _, True) G S0 st'.
Proof.
  intros HG st Hst. unfold DerivedPredicate_derive.
  apply (foldR_inv_not_diverged (pass_invariant (λ _, True) G S0)); [|done].
  apply Forall_forall. intros t Ht [ch s] (Hsub & Hsup & Hflag & _).
  simpl in *.
  pose proof (Evaluate_not_diverged pddl s (DerivedPredicate_body pred)
                (bind_arguments (DerivedPredicate_parameters pred) t)) as Hnd.
  unfold not_diverged in *.
  destruct (Evaluate pddl _ _ s) as [[]|e]; simpl.
  - split; [done|]. intros st' [= <-]. unfold pass_invariant. simpl.
    split; [|split; [|split]]; [set_solver | | | done].
    + specialize (HG t Ht). set_solver.
    + intros Hor Heq. apply orb_prop in Hor as [->|HP%bool_decide_eq_true].
      * apply Hflag; [done|]. set_solver.
      * apply HP. apply Hsub. rewrite <- Heq. set_solver.
  - split; [done|]. by intros st' [= <-].
  - split; [|done]. intros [= ->]. by apply Hnd.
Qed.

Lemma DerivedPredicate_pass_invariant pddl predicates (S0 : State) :
  not_diverged (DerivedPredicate_pass pddl predicates S0)
  ∧ ∀ st, DerivedPredicate_pass pddl predicates S0 = Ok st →
          pass_invariant (λ _, True)
            (list_to_set (head_groundings pddl predicates)) S0 st.
Proof.
  unfold DerivedPredicate_pass.
  apply (foldR_inv_not_diverged
           (pass_invariant (λ _, True)
              (list_to_set (head_groundings pddl predicates)) S0)).
  - apply Forall_forall. intros pred Hpred st Hst.
    apply DerivedPredicate_derive_invariant; [|done].
    intros t Ht. by apply head_groundings_elem_of.
  - unfold pass_invariant. simpl. split; [done|]. split; [set_solver|].
    split; done.
Qed.

Lemma closure_loop_not_diverged pddl predicates :
  ∀ passes (S0 : State),
    size ((list_to_set (head_groundings pddl predicates) : State) ∖ S0)
      < passes →
    not_diverged (closure_loop passes pddl predicates S0).
Proof.
  induction passes as [|n IH]; intros S0 Hsize; [lia|]. simpl.
  destruct (DerivedPredicate_pass_invariant pddl predicates S0)
    as [Hnd Hinv].
  destruct (DerivedPredicate_pass pddl predicates S0) as [[ch s]|e];
    simpl; [|done].
  destruct (Hinv _ eq_refl) as (Hsub & Hsup & Hflag & _). simpl in *.
  destruct ch; [|done].
  apply bind_not_diverged; [|done]. apply IH.
  specialize (Hflag eq_refl).
  assert (list_to_set (head_groundings pddl predicates) ∖ s
          ⊂ list_to_set (head_groundings pddl predicates) ∖ S0) as Hlt.
  { split; [set_solver|]. intros Hsubset.
    apply Hflag. apply set_eq. intros P. split; [|by apply Hsub].
    intros HP. destruct (decide (P ∈ S0)) as [|HnP]; [done|].
    assert (P ∈ list_to_set (head_groundings pddl predicates) ∖ S0) as HPG.
    { apply elem_of_difference. split; [|done].
      apply Hsup in HP. set_solver. }
    apply Hsubset in HPG. set_solver. }
  apply subset_size in Hlt. lia.
Qed.

Lemma closure_bound_covers pddl predicates (S0 : State) :
  size ((list_to_set (head_groundings pddl predicates) : State) ∖ S0)
  < closure_bound pddl predicates.
Proof.
  unfold closure_bound.
  pose proof (subseteq_size
    ((list_to_set (head_groundings pddl predicates) : State) ∖ S0)
    (list_to_set (head_groundings pddl predicates)) ltac:(set_solver)) as H1.
  pose proof (size_list_to_set_le (head_groundings pddl predicates)) as H2.
  destruct predicates as [|pred predicates]; simpl in *; [lia|]. lia.
Qed.

(** On every façade and every state the bound on the number of passes is
    enough: the closure's fatal error is unreachable. *)
Lemma DerivedPredicate_Apply_not_diverged pddl predicates (S0 : State) :
  not_diverged (DerivedPredicate_Apply pddl predicates S0).
Proof. apply closure_loop_not_diverged, closure_bound_covers. Qed.

Lemma Apply_not_diverged pddl (state : State) action arguments predicates :
  not_diverged (Apply pddl state action arguments predicates).
Proof.
  unfold Apply. apply bind_not_diverged; [apply apply_effects_not_diverged|].
  intros next_state _.
  apply bind_not_diverged; [apply DerivedPredicate_Apply_not_diverged | done].
Qed.



(** ** Effects of validated actions *)

Lemma foldR_total_inv {A B} (I : B → Prop) (f : B → A → Result B)
    (l : list A) :
  Forall (λ x, ∀ b, I b → ∃ b', f b x = Ok b' ∧ I b') l →
  ∀ b, I b → ∃ b', foldR f b l = Ok b' ∧ I b'.
Proof.
  induction 1 as [|x l Hx _ IH]; intros b Hb; simpl; [by exists b|].
  destruct (Hx b Hb) as (b1 & -> & Hb1). simpl. by apply IH.
Qed.

Section over_registry.

Variable pddl : Pddl.
Variable Q : Proposition → Prop.
Hypothesis Q_registered : ∀ P, registered pddl P = true → Q P.
Hypothesis Hmap : object_map_ pddl = CreateObjectTypeMap (objects_ pddl).

Lemma state_over_insert (S : State) (P : Proposition) :
  Q P → state_over Q S →
  state_over Q ({[P]} ∪ S).
Proof.
  intros HP HS P' [->%elem_of_singleton|HP']%elem_of_union;
    [done | by apply HS].
Qed.

Lemma state_over_delete (S : State) (P : Proposition) :
  state_over Q S → state_over Q (S ∖ {[P]}).
Proof. intros HS P' [HP' _]%elem_of_difference. by apply HS. Qed.

Lemma apply_effects_wf (pre : State) (effs : effect_lists) :
  ∀ σ bound work,
    binds pddl σ bound → wf_effects pddl bound effs = true →
    state_over Q work →
    ∃ work', apply_effects pddl pre effs σ work = Ok work'
             ∧ state_over Q work'.
Proof.
  induction effs as [adds dels foralls conds IHf IHc]
    using effect_lists_nested_ind.
  intros σ bound work Hσ Hwf Hwork. simpl in Hwf.
  rewrite !andb_true_iff in Hwf.
  destruct Hwf as [[[Hadds Hdels] Hforalls] Hconds].
  apply forallb_Forall in Hadds, Hdels, Hforalls, Hconds.
  cbn [apply_effects add_effects del_effects cond_effects forall_effects].
  destruct (foldR_total_inv (state_over Q)
              (λ w p, P ← ground pddl σ p; Ok ({[P]} ∪ w)) adds)
    with (b := work) as (w1 & -> & Hw1); [|done|].
  { eapply Forall_impl; [exact Hadds|]. intros p Hp w Hw.
    destruct (ground_wf pddl σ bound p Hσ Hp) as (P & -> & HP). simpl.
    eexists. split; [done|]. apply state_over_insert; [|done].
    by apply Q_registered. }
  simpl.
  destruct (foldR_total_inv (state_over Q)
              (λ w p, P ← ground pddl σ p; Ok (w ∖ {[P]})) dels)
    with (b := w1) as (w2 & -> & Hw2); [|done|].
  { eapply Forall_impl; [exact Hdels|]. intros p Hp w Hw.
    destruct (ground_wf pddl σ bound p Hσ Hp) as (P & -> & HP). simpl.
    eexists. split; [done|]. by apply state_over_delete. }
  simpl.
  destruct (foldR_total_inv (state_over Q)
              (λ w ce, b ← Evaluate pddl ce.1 σ pre;
                       if b : bool then apply_effects pddl pre ce.2 σ w
                       else Ok w) conds)
    with (b := w2) as (w3 & -> & Hw3); [|done|].
  { rewrite Forall_forall in IHc, Hconds |- *. intros ce Hce w Hw.
    apply Hconds in Hce as Hwfce. apply andb_prop in Hwfce as [Hc He].
    destruct (Evaluate_wf pddl pre ce.1 Hmap σ bound Hσ Hc) as [b ->]. simpl.
    destruct b; [by eapply IHc | by exists w]. }
  simpl.
  apply (foldR_total_inv (state_over Q)); [|done].
  rewrite Forall_forall in IHf, Hforalls |- *. intros fe Hfe w Hw.
  apply (foldR_total_inv (state_over Q)); [|done].
  apply Forall_forall. intros t Ht w' Hw'.
  eapply IHf; [done | by apply binds_extend | by apply Hforalls | done].
Qed.

(** ** The closure converges within its bound *)

Lemma DerivedPredicate_derive_wf (G S0 : State) (pred : DerivedPredicate) :
  wf_derived pddl pred = true →
  (∀ t, t ∈ ParameterGenerator (object_map_ pddl)
                               (DerivedPredicate_parameters pred) →
        mkProposition (DerivedPredicate_name pred) t ∈ G) →
  ∀ st, pass_invariant Q G S0 st →
    ∃ st', DerivedPredicate_derive pddl st pred = Ok st'
           ∧ pass_invariant Q G S0 st'.
Proof.
  intros [Hname Hbody]%andb_prop HG st Hst.
  unfold DerivedPredicate_derive.
  apply (foldR_total_inv (pass_invariant Q G S0)); [|done].
  apply Forall_forall. intros t Ht [ch s] (Hsub & Hsup & Hflag & Hreg).
  simpl in *.
  pose proof (ParameterGenerator_registered pddl _ t Hmap Ht) as [Hlen Hobjs].
  destruct (Evaluate_wf pddl s (DerivedPredicate_body pred) Hmap
              (bind_arguments (DerivedPredicate_parameters pred) t)
              (getName <$> DerivedPredicate_parameters pred))
    as [b ->]; [by apply binds_arguments | done |].
  simpl. destruct b; [|by exists (ch, s)].
  eexists. split; [done|]. unfold pass_invariant. simpl.
  split; [|split; [|split]].
  - set_solver.
  - specialize (HG t Ht). set_solver.
  - intros Hor Heq. apply orb_prop in Hor as [->|HP%bool_decide_eq_true].
    + apply Hflag; [done|]. set_solver.
    + apply HP. apply Hsub. rewrite <- Heq. set_solver.
  - apply state_over_insert; [|done]. by apply Q_registered, registered_spec.
Qed.

Lemma DerivedPredicate_pass_wf predicates (S0 : State) :
  Forall (λ d, wf_derived pddl d = true) predicates →
  state_over Q S0 →
  ∃ st, DerivedPredicate_pass pddl predicates S0 = Ok st
        ∧ pass_invariant Q (list_to_set (head_groundings pddl predicates))
                         S0 st.
Proof.
  intros Hwf HS0. unfold DerivedPredicate_pass.
  apply (foldR_total_inv
           (pass_invariant Q (list_to_set (head_groundings pddl predicates))
                           S0)).
  - rewrite Forall_forall in Hwf |- *. intros pred Hpred st Hst.
    apply DerivedPredicate_derive_wf; [by apply Hwf | | done].
    intros t Ht. by apply head_groundings_elem_of.
  - unfold pass_invariant. simpl. split; [done|]. split; [set_solver|].
    split; done.
Qed.

Lemma closure_loop_wf predicates :
  Forall (λ d, wf_derived pddl d = true) predicates →
  ∀ passes (S0 : State),
    size ((list_to_set (head_groundings pddl predicates) : State) ∖ S0)
      < passes →
    state_over Q S0 →
    ∃ st, closure_loop passes pddl predicates S0 = Ok st
          ∧ state_over Q st.2.
Proof.
  intros Hwf. induction passes as [|n IH]; intros S0 Hsize HS0; [lia|].
  simpl.
  destruct (DerivedPredicate_pass_wf predicates S0 Hwf HS0)
    as ([ch s] & -> & Hsub & Hsup & Hflag & Hreg).
  simpl in *. destruct ch; [|by exists (false, s)].
  destruct (IH s) as (st' & -> & Hst'); [|done|by exists (true, st'.2)].
  specialize (Hflag eq_refl).
  assert (list_to_set (head_groundings pddl predicates) ∖ s
          ⊂ list_to_set (head_groundings pddl predicates) ∖ S0) as Hlt.
  { split; [set_solver|]. intros Hsubset.
    apply Hflag. apply set_eq. intros P. split; [|by apply Hsub].
    intros HP. destruct (decide (P ∈ S0)) as [|HnP]; [done|].
    assert (P ∈ list_to_set (head_groundings pddl predicates) ∖ S0) as HPG.
    { apply elem_of_difference. split; [|done].
      apply Hsup in HP. set_solver. }
    apply Hsubset in HPG. set_solver. }
  apply subset_size in Hlt. lia.
Qed.

(** The closure of a validated façade returns, and stays over the
    registry. *)
Lemma DerivedPredicate_Apply_wf predicates (S0 : State) :
  Forall (λ d, wf_derived pddl d = true) predicates →
  state_over Q S0 →
  ∃ st, DerivedPredicate_Apply pddl predicates S0 = Ok st
        ∧ state_over Q st.2.
Proof.
  intros Hwf HS0. unfold DerivedPredicate_Apply.
  apply closure_loop_wf; [done | apply closure_bound_covers | done].
Qed.

End over_registry.

(** ** Transitions of a validated façade *)

Lemma Action_Parse_spec pddl action_call action arguments :
  Action_Parse pddl action_call = Ok (action, arguments) →
  action ∈ actions_ pddl
  ∧ Forall (λ o, o ∈ objects_ pddl) arguments
  ∧ length arguments = length (Action_parameters action).
Proof.
  unfold Action_Parse. intros H. bind_inv H. destruct r as [h tokens].
  destruct (List.find _ (actions_ pddl)) as [a|] eqn:Hfind; [|done].
  bind_inv H. case_bool_decide as Hlen; [|done]. injection H as <- <-.
  apply find_Some_elem_of in Hfind as [Ha _].
  apply mapR_Object_Parse_registered in E0 as [Hobjs _]. done.
Qed.


Lemma Apply_wf pddl (Q : Proposition → Prop) action (state : State) arguments :
  (∀ P, registered pddl P = true → Q P) →
  object_map_ pddl = CreateObjectTypeMap (objects_ pddl) →
  Forall (λ d, wf_derived pddl d = true) (derived_predicates_ pddl) →
  wf_action pddl action = true →
  Forall (λ o, o ∈ objects_ pddl) arguments →
  length arguments = length (Action_parameters action) →
  state_over Q state →
  ∃ next_state,
    Apply pddl state action arguments (derived_predicates_ pddl) = Ok next_state
    ∧ state_over Q next_state.
Proof.
  intros HQ Hmap Hpreds [_ Heffs]%andb_prop Hobjs Hlen Hstate.
  unfold Apply, Action_Apply.
  destruct (apply_effects_wf pddl Q HQ Hmap state (Action_effects action)
              (bind_arguments (Action_parameters action) arguments)
              (getName <$> Action_parameters action) state)
    as (next_state & -> & Hnext); [by apply binds_arguments | done | done |].
  simpl.
  destruct (DerivedPredicate_Apply_wf pddl Q HQ Hmap
              (derived_predicates_ pddl) next_state Hpreds Hnext)
    as (st & -> & Hst).
  simpl. by exists st.2.
Qed.

Lemma NextState_wf pddl (Q : Proposition → Prop) (state : State)
    action_call action arguments :
  (∀ P, registered pddl P = true → Q P) →
  wf_pddl pddl = true →
  Action_Parse pddl action_call = Ok (action, arguments) →
  state_over Q state →
  ∃ next_state,
    NextState pddl state action_call = Ok next_state
    ∧ state_over Q next_state.
Proof.
  intros HQ (_ & _ & Hmap & _ & Hactions & Hpreds & _)%wf_pddl_spec
         Hparse Hstate.
  unfold NextState. rewrite Hparse. simpl.
  apply Action_Parse_spec in Hparse as (Haction & Hobjs & Hlen).
  apply Apply_wf; try done.
  rewrite Forall_forall in Hactions. by apply Hactions.
Qed.

Lemma reachable_registered pddl (S : State) :
  wf_pddl pddl = true → reachable pddl S → state_registered pddl S.
Proof.
  intros Hwf. induction 1 as [|S action_call S' _ IH Hnext].
  - by apply wf_pddl_spec in Hwf as (_ & _ & _ & _ & _ & _ & Hinit).
  - unfold NextState in Hnext. bind_inv Hnext. destruct r as [action arguments].
    destruct (NextState_wf pddl (λ P, registered pddl P = true) S action_call
                action arguments) as (S'' & HS'' & Hreg); try done.
    unfold NextState in HS''. rewrite E in HS''. simpl in HS''.
    rewrite Hnext in HS''. by injection HS'' as <-.
Qed.

Lemma ParseState_Stringify_registered pddl (S : State) :
  wf_pddl pddl = true → state_registered pddl S →
  ParseState pddl (Stringify S) = Ok S.
Proof.
  intros (Hnd & Hident & _)%wf_pddl_spec Hreg.
  apply ParseState_Stringify_round. intros P HP.
  apply Proposition_Parse_to_string; [done | done | by apply Hreg].
Qed.

(** C7.  In a validated façade, the text form of every reachable state
    parses back to that state. *)
Theorem ParseState_Stringify_reachable (pddl : Pddl) (S : State) :
  wf_pddl pddl = true →
  reachable pddl S →
  ParseState pddl (Stringify S) = Ok S.
Proof.
  intros Hwf Hreach. apply ParseState_Stringify_registered; [done|].
  by apply reachable_registered.
Qed.

Lemma closure_loop_superset pddl predicates :
  ∀ passes (S0 : State) st,
    closure_loop passes pddl predicates S0 = Ok st → S0 ⊆ st.2.
Proof.
  induction passes as [|n IH]; intros S0 st; simpl; [done|].
  intros H. bind_inv H.
  pose proof (proj2 (DerivedPredicate_pass_invariant pddl predicates S0) _ E)
    as (Hsub & _).
  destruct r as [[] s]; simpl in *.
  - bind_inv H. injection H as <-. simpl.
    etrans; [exact Hsub|]. by eapply IH.
  - by injection H as <-.
Qed.

(** C4.  [NextState] has no test of the precondition: for a call that parses
    to [(action, arguments)] it is the closure of the state merged with the
    action's effect delta, whatever [IsValid] answers; in a validated façade
    the delta is computed, the closure comes to its end, and the result
    holds the merged state.  For an action without conditional and
    quantified effects the merged state is the given state with the add
    effects inserted and then the delete effects removed.  The result is the
    same for the action under any other precondition, and the closure in it
    never runs out of passes. *)
Theorem NextState_unconditional (pddl : Pddl) (state : State)
    (action_call : string) (action : Action) (arguments : list Object) :
  Action_Parse pddl action_call = Ok (action, arguments) →
  NextState pddl state action_call
  = (delta ← effect_delta pddl state (Action_effects action)
               (bind_arguments (Action_parameters action) arguments) [];
     st ← DerivedPredicate_Apply pddl (derived_predicates_ pddl)
            (merge_deltas state delta);
     Ok st.2)
  ∧ (wf_pddl pddl = true →
     ∃ delta closed,
       effect_delta pddl state (Action_effects action)
         (bind_arguments (Action_parameters action) arguments) [] = Ok delta
       ∧ DerivedPredicate_Apply pddl (derived_predicates_ pddl)
           (merge_deltas state delta) = Ok closed
       ∧ NextState pddl state action_call = Ok closed.2
       ∧ merge_deltas state delta ⊆ closed.2)
  ∧ (cond_effects (Action_effects action) = [] →
     forall_effects (Action_effects action) = [] →
     ∀ A D,
       mapR (ground pddl (bind_arguments (Action_parameters action) arguments))
            (add_effects (Action_effects action)) = Ok A →
       mapR (ground pddl (bind_arguments (Action_parameters action) arguments))
            (del_effects (Action_effects action)) = Ok D →
       NextState pddl state action_call
       = (st ← DerivedPredicate_Apply pddl (derived_predicates_ pddl)
                 ((state ∪ list_to_set A) ∖ list_to_set D);
          Ok st.2))
  ∧ (∀ pre,
       Apply pddl state (with_precondition action pre) arguments
             (derived_predicates_ pddl)
       = NextState pddl state action_call)
  ∧ NextState pddl state action_call ≠ Err ClosureDiverged.
Proof.
  intros Hparse.
  assert (NextState pddl state action_call
          = (delta ← effect_delta pddl state (Action_effects action)
                       (bind_arguments (Action_parameters action) arguments)
                       [];
             st ← DerivedPredicate_Apply pddl (derived_predicates_ pddl)
                    (merge_deltas state delta);
             Ok st.2)) as Heq.
  { unfold NextState. rewrite Hparse. simpl. unfold Apply.
    rewrite Action_Apply_delta. by destruct (effect_delta _ _ _ _ _). }
  split; [exact Heq|]. split; [|split; [|split]].
  2:{ intros Hcond Hforall A D HA HD. unfold NextState. rewrite Hparse. simpl.
      unfold Apply. by rewrite (Action_Apply_strips _ _ _ _ A D). }
  - intros Hwf.
    destruct (NextState_wf pddl (λ _, True) state action_call action arguments)
      as (next_state & Hnext & _); try done.
    rewrite Hnext in Heq.
    destruct (effect_delta _ _ _ _ _) as [delta|e]; simpl in Heq; [|done].
    destruct (DerivedPredicate_Apply _ _ _) as [closed|e] eqn:Hclosed;
      simpl in Heq; [|done].
    injection Heq as ->. exists delta, closed.
    split; [done|]. split; [done|]. split; [done|].
    by eapply closure_loop_superset.
  - intros pre. unfold NextState. by rewrite Hparse.
  - unfold NextState. rewrite Hparse. simpl. apply Apply_not_diverged.
Qed.

Lemma NextState_str_round pddl (S : State) (action_call : string) :
  ParseState pddl (Stringify S) = Ok S →
  NextState_str pddl (Stringify S) action_call
  = Stringify <$> NextState pddl S action_call.
Proof.
  intros Hround. unfold NextState_str, NextState. rewrite Hround. simpl.
  destruct (Action_Parse pddl action_call) as [[action arguments]|e];
    simpl; [|done].
  rewrite <- Apply_inplace_state.
  by destruct (Apply_inplace _ _ _ _ _).
Qed.


(** ** Enumeration *)

Lemma filterR_spec {A} (f : A → Result bool) (l ys : list A) :
  filterR f l = Ok ys → ys = filter (λ x, f x = Ok true) l.
Proof.
  revert ys. induction l as [|x l IH]; intros ys; simpl.
  - by intros [= <-].
  - intros H. bind_inv H. bind_inv H. injection H as <-.
    rewrite filter_cons, <- (IH r0 E0).
    destruct r, (decide (f x = Ok true)) as [Hx|Hx]; try done; congruence.
Qed.


Lemma ListValidArguments_spec pddl (state : State) action arguments :
  ListValidArguments pddl state action = Ok arguments →
  arguments = valid_arguments pddl state action.
Proof. apply filterR_spec. Qed.

Lemma ListValidActions_fold pddl (state : State) (actions : list Action) :
  ∀ acc l,
    foldR (λ actions action,
             arguments ← ListValidArguments pddl state action;
             Ok (actions ++ (Action_to_string action <$> arguments))%list)
          acc actions = Ok l →
    l = (acc ++ flat_map (λ a, Action_to_string a
                                 <$> valid_arguments pddl state a)
                         actions)%list.
Proof.
  induction actions as [|a actions IH]; intros acc l; simpl.
  - intros [= <-]. by rewrite app_nil_r.
  - intros H. bind_inv H. bind_inv E. injection E as <-.
    apply ListValidArguments_spec in E0 as ->.
    apply IH in H as ->. by rewrite <- app_assoc.
Qed.

Lemma ListValidActions_spec pddl (state : State) l :
  ListValidActions pddl state = Ok l →
  l = flat_map (λ a, Action_to_string a <$> valid_arguments pddl state a)
               (actions_ pddl).
Proof. intros H. by apply ListValidActions_fold in H. Qed.

Lemma elem_of_valid_arguments pddl (state : State) action t :
  t ∈ valid_arguments pddl state action ↔
  t ∈ ParameterGenerator (object_map_ pddl) (Action_parameters action)
  ∧ Action_IsValid pddl action state t = Ok true.
Proof. unfold valid_arguments. rewrite list_elem_of_filter. tauto. Qed.


(** The canonical text of a call reads back as the call. *)
Lemma Action_Parse_to_string pddl action arguments :
  wf_pddl pddl = true →
  action ∈ actions_ pddl →
  Forall (λ o, o ∈ objects_ pddl) arguments →
  length arguments = length (Action_parameters action) →
  Action_Parse pddl (Action_to_string action arguments)
  = Ok (action, arguments).
Proof.
  intros (Hnd & Hident & _ & Hnames & Hactions & _)%wf_pddl_spec
         Haction Hobjs Hlen.
  rewrite Forall_forall in Hactions.
  pose proof (Hactions action Haction) as [[Hname _]%andb_prop _]%andb_prop.
  unfold Action_Parse, Action_to_string. rewrite ParseCall_to_string.
  - simpl. rewrite (find_NoDup Action_name) by done.
    rewrite mapR_Object_Parse_names by done. simpl.
    by rewrite bool_decide_eq_true_2.
  - by apply ident_ok_no_delimiter.
  - rewrite Forall_forall in Hobjs, Hident |- *.
    intros o Ho. by apply Hident, Hobjs.
Qed.




Lemma flat_map_pairs_fmap {A B C} (f : A → B → C) (g : A → list B)
    (l : list A) :
  flat_map (λ a, f a <$> g a) l
  = (λ p, f p.1 p.2) <$> flat_map (λ a, pair a <$> g a) l.
Proof.
  induction l as [|a l IH]; simpl; [done|].
  rewrite fmap_app, IH. f_equal. rewrite <- list_fmap_compose.
  by apply list_fmap_ext.
Qed.

Lemma elem_of_flat_map_pairs {A B} (g : A → list B) (l : list A) (p : A * B) :
  p ∈ flat_map (λ a, pair a <$> g a) l ↔ p.1 ∈ l ∧ p.2 ∈ g p.1.
Proof.
  rewrite list_elem_of_In, in_flat_map. split.
  - intros (a & Ha & Hin).
    apply list_elem_of_In, list_elem_of_fmap in Hin as (b & -> & Hb).
    split; [by apply list_elem_of_In | done].
  - intros [Ha Hb]. exists p.1. split; [by apply list_elem_of_In|].
    apply list_elem_of_In, list_elem_of_fmap. exists p.2.
    split; [by destruct p | done].
Qed.


(** ** The scenario of the specification *)

(** Closes a decidable closed goal by evaluation. *)
Ltac by_evaluation :=
  match goal with
  | |- ?P => apply (bool_decide_eq_true_1 P); vm_compute; reflexivity
  end.

Example scenario_initial_state :
  initial_state_ Scenario.pddl
  = {[Scenario.on_table_fact Scenario.a; Scenario.on_table_fact Scenario.b]}.
Proof. by_evaluation. Qed.

Example scenario_pick_up_a_valid :
  IsValidAction Scenario.pddl (initial_state_ Scenario.pddl) "pick-up(a)"
  = Ok true.
Proof. by_evaluation. Qed.

Example scenario_pick_up_a_next :
  NextState Scenario.pddl (initial_state_ Scenario.pddl) "pick-up(a)"
  = Ok {[Scenario.on_table_fact Scenario.b]}.
Proof. by_evaluation. Qed.

Example scenario_pick_up_a_again :
  IsValidAction Scenario.pddl {[Scenario.on_table_fact Scenario.b]} "pick-up(a)"
  = Ok false.
Proof. by_evaluation. Qed.

Example scenario_plan :
  IsValidPlan Scenario.pddl ["pick-up(a)"; "pick-up(b)"] = Ok true.
Proof. by_evaluation. Qed.

Example scenario_text_round_trip :
  Stringify (initial_state_ Scenario.pddl) = {["on-table(a)"; "on-table(b)"]}
  ∧ ParseState Scenario.pddl {["on-table(a)"; "on-table(b)"]}
    = Ok (initial_state_ Scenario.pddl).
Proof. split; by_evaluation. Qed.

Example scenario_valid_actions :
  ListValidActions Scenario.pddl (initial_state_ Scenario.pddl)
  = Ok ["pick-up(a)"; "pick-up(b)"].
Proof. by_evaluation. Qed.

(** ** Instances on the blocks domain *)

Example blocks_valid_actions :
  ListValidActions Blocks.pddl (initial_state_ Blocks.pddl)
  = Ok ["pick-up(a)"; "pick-up(b)"].
Proof. by_evaluation. Qed.

Example blocks_plan :
  IsValidPlan Blocks.pddl ["pick-up(b)"] = Ok true
  ∧ IsValidPlan Blocks.pddl ["pick-up(a)"; "put-down(a)"; "pick-up(b)"]
    = Ok true.
Proof. split; by_evaluation. Qed.

(** The initial state is not closed under the derived predicates: with [a]
    in the hand from the start, the empty plan does not reach the goal that
    [a] is lifted, which the closure of the initial state satisfies. *)
Example blocks_initial_state_not_closed :
  IsValidPlan Blocks.held_pddl [] = Ok false
  ∧ (st ← DerivedPredicate_Apply Blocks.held_pddl
            (derived_predicates_ Blocks.held_pddl)
            (initial_state_ Blocks.held_pddl);
     Goal_eval Blocks.held_pddl st.2) = Ok true.
Proof. split; by_evaluation. Qed.

Lemma IsValidPlan_plan_equivalence_witness :
  IsValidPlan Blocks.pddl ["pick-up(a)"; "pick-up(b)"; "junk"] = Ok false
  ∧ IsValidPlan Blocks.pddl ["pick-up(a)"; "junk"] = Err (ParseError "junk").
Proof.
  split; [|by_evaluation].
  apply (proj2 (proj2 (IsValidPlan_plan_equivalence Blocks.pddl
                         ["pick-up(a)"; "pick-up(b)"; "junk"]))
           ["pick-up(a)"] "pick-up(b)" ["junk"] Blocks.holding_a).
  - reflexivity.
  - apply (plan_run_cons Blocks.pddl _ _ Blocks.holding_a);
      [by_evaluation | by_evaluation | apply plan_run_nil].
  - by_evaluation.
Defined.

Lemma NextState_unconditional_witness :
  wf_pddl Blocks.pddl = true
  ∧ Action_Parse Blocks.pddl "pick-up(b)"
    = Ok (Action_new Blocks.pick_up, [Blocks.obj Blocks.b])
  ∧ IsValidAction Blocks.pddl Blocks.holding_a "pick-up(b)" = Ok false
  ∧ NextState Blocks.pddl Blocks.holding_a "pick-up(b)"
    = Ok Blocks.holding_both
  ∧ ∃ delta closed,
      effect_delta Blocks.pddl Blocks.holding_a
        (Action_effects (Action_new Blocks.pick_up))
        (bind_arguments (Action_parameters (Action_new Blocks.pick_up))
                        [Blocks.obj Blocks.b]) [] = Ok delta
      ∧ DerivedPredicate_Apply Blocks.pddl (derived_predicates_ Blocks.pddl)
          (merge_deltas Blocks.holding_a delta) = Ok closed
      ∧ NextState Blocks.pddl Blocks.holding_a "pick-up(b)" = Ok closed.2
      ∧ merge_deltas Blocks.holding_a delta ⊆ closed.2.
Proof.
  assert (wf_pddl Blocks.pddl = true) as Hwf by (vm_compute; reflexivity).
  assert (Action_Parse Blocks.pddl "pick-up(b)"
          = Ok (Action_new Blocks.pick_up, [Blocks.obj Blocks.b])) as Hparse
    by (vm_compute; reflexivity).
  split; [exact Hwf|]. split; [exact Hparse|]. split; [by_evaluation|].
  split; [by_evaluation|].
  exact (proj1 (proj2 (NextState_unconditional Blocks.pddl Blocks.holding_a
                         "pick-up(b)" (Action_new Blocks.pick_up)
                         [Blocks.obj Blocks.b] Hparse)) Hwf).
Defined.

Lemma IsValidPlan_empty_witness :
  Pddl_new Blocks.parser "domain.pddl" "problem.pddl" = Ok Blocks.pddl
  ∧ IsValidPlan Blocks.pddl []
    = Goal_eval Blocks.pddl (initial_state_ Blocks.pddl).
Proof.
  split; [reflexivity|].
  apply (IsValidPlan_empty Blocks.parser "domain.pddl" "problem.pddl"
           Blocks.pddl).
  reflexivity.
Defined.

Lemma ParseState_Stringify_reachable_witness :
  wf_pddl Blocks.pddl = true
  ∧ reachable Blocks.pddl Blocks.holding_a
  ∧ ParseState Blocks.pddl (Stringify Blocks.holding_a) = Ok Blocks.holding_a.
Proof.
  assert (reachable Blocks.pddl Blocks.holding_a) as Hreach.
  { apply (reachable_next Blocks.pddl (initial_state_ Blocks.pddl)
             "pick-up(a)"); [apply reachable_initial | by_evaluation]. }
  split; [vm_compute; reflexivity|]. split; [exact Hreach|].
  apply (ParseState_Stringify_reachable Blocks.pddl Blocks.holding_a);
    [vm_compute; reflexivity | exact Hreach].
Defined.


(** * More of the façade's behaviour *)

(** ** Loading *)

Lemma ParsePddl_domain_parsed parser filename_domain filename_problem d :
  parser filename_domain = Some (parsed_domain d) →
  ParsePddl parser filename_domain filename_problem
  = Ok (yyparse parser filename_problem (mk_analysis (Some d) None)).
Proof.
  intros Hd. unfold ParsePddl.
  assert (yyparse parser filename_domain (mk_analysis None None)
          = mk_analysis (Some d) None) as ->.
  { unfold yyparse. by rewrite Hd. }
  rewrite bool_decide_eq_false_2 by done.
  rewrite bool_decide_eq_false_2; [done|].
  by apply yyparse_keeps_domain.
Qed.

Lemma ParsePddl_domain_unparsed parser filename_domain filename_problem :
  (∀ d, parser filename_domain ≠ Some (parsed_domain d)) →
  ParsePddl parser filename_domain filename_problem
  = Err (LoadError ("ParsePddl(): Unable to parse domain from file: "
                    +:+ filename_domain)).
Proof.
  intros Hd. unfold ParsePddl.
  assert (the_domain (yyparse parser filename_domain (mk_analysis None None))
          = None) as Hnone.
  { unfold yyparse. destruct (parser filename_domain) as [[d|p]|] eqn:E;
      [by destruct (Hd d) | done | done]. }
  by rewrite bool_decide_eq_true_2.
Qed.

Lemma parser_domain_dec (parser : Parser) (filename : string) :
  (∃ d, parser filename = Some (parsed_domain d))
  ∨ (∀ d, parser filename ≠ Some (parsed_domain d)).
Proof.
  destruct (parser filename) as [[d|p]|]; [left; by exists d | by right..].
Qed.

(** X2.  Construction succeeds exactly when the first file yields a domain
    and the second a problem, and the façade is then the one whose members
    are built from that domain and that problem. *)
Theorem Pddl_new_succeeds_iff (parser : Parser)
    (domain_pddl problem_pddl : string) (pddl : Pddl) :
  Pddl_new parser domain_pddl problem_pddl = Ok pddl ↔
  ∃ d p, parser domain_pddl = Some (parsed_domain d)
         ∧ parser problem_pddl = Some (parsed_problem p)
         ∧ pddl = Pddl_members (mk_analysis (Some d) (Some p)) d p.
Proof.
  unfold Pddl_new.
  destruct (parser_domain_dec parser domain_pddl) as [[d Hd]|Hd].
  - rewrite (ParsePddl_domain_parsed _ _ _ d Hd). unfold yyparse.
    destruct (parser problem_pddl) as [[d1|p]|] eqn:Hp; simpl.
    + split; [done | by intros (? & ? & _ & ? & _)].
    + split.
      * intros [= <-]. by exists d, p.
      * intros (d' & p' & Hd' & [= <-] & ->). rewrite Hd in Hd'.
        by injection Hd' as <-.
    + split; [done | by intros (? & ? & _ & ? & _)].
  - rewrite (ParsePddl_domain_unparsed _ _ _ Hd). simpl.
    split; [done|]. intros (d & p & Hd' & _). by destruct (Hd d).
Qed.

(** ** The type index and the registry *)

Lemma CreateObjectTypeMap_inner_nonempty (object : Object) (tys : list string) :
  ∀ m : ObjectTypeMap,
    (∀ ty l, m !! ty = Some l → l ≠ []) →
    ∀ ty l,
      foldl (λ (object_map : ObjectTypeMap) type,
               <[type := (objects_of_type object_map type ++ [object])%list]>
                 object_map) m tys !! ty = Some l →
      l ≠ [].
Proof.
  induction tys as [|ty0 tys IH]; intros m Hm; simpl; [done|].
  apply IH. intros ty l. destruct (decide (ty0 = ty)) as [->|Hne].
  - rewrite lookup_insert_eq. intros [= <-]. by destruct (objects_of_type m ty).
  - rewrite lookup_insert_ne by done. apply Hm.
Qed.

Lemma CreateObjectTypeMap_nonempty (objs : list Object) (ty : string)
    (l : list Object) :
  CreateObjectTypeMap objs !! ty = Some l → l ≠ [].
Proof.
  unfold CreateObjectTypeMap.
  assert (∀ ty l, (∅ : ObjectTypeMap) !! ty = Some l → l ≠ []) as Hempty
    by (intros ??; by rewrite lookup_empty).
  revert Hempty ty l. generalize (∅ : ObjectTypeMap).
  induction objs as [|o objs IH]; intros m Hm ty l; simpl; [apply Hm|].
  apply IH. by apply CreateObjectTypeMap_inner_nonempty.
Qed.

Lemma CreateObjectTypeMap_members (objs : list Object) (ty : string) (o : Object) :
  o ∈ objects_of_type (CreateObjectTypeMap objs) ty ↔
  o ∈ objs ∧ ty ∈ ListTypes o.
Proof.
  unfold CreateObjectTypeMap. rewrite CreateObjectTypeMap_outer.
  unfold objects_of_type at 1. rewrite lookup_empty. simpl.
  rewrite list_elem_of_In, in_flat_map. split.
  - intros (o' & Ho' & Hin). apply list_elem_of_In in Hin.
    apply list_elem_of_fmap in Hin as (ty' & -> & Hty).
    apply list_elem_of_filter in Hty as [-> Hty].
    split; [by apply list_elem_of_In | done].
  - intros [Ho Hty]. exists o. split; [by apply list_elem_of_In|].
    apply list_elem_of_In, list_elem_of_fmap. exists ty. split; [done|].
    by apply list_elem_of_filter.
Qed.

(** X3.  The type index has a key exactly for the types some object
    satisfies: a type without members is a missing key, never a key with an
    empty vector, and a present key holds exactly the objects that satisfy
    the type. *)
Theorem CreateObjectTypeMap_keys (objs : list Object) (ty : string) :
  (CreateObjectTypeMap objs !! ty = None ↔
   ∀ o, o ∈ objs → ty ∉ ListTypes o)
  ∧ (∀ l, CreateObjectTypeMap objs !! ty = Some l →
          l ≠ [] ∧ ∀ o, o ∈ l ↔ o ∈ objs ∧ ty ∈ ListTypes o).
Proof.
  pose proof (CreateObjectTypeMap_members objs ty) as Hmem.
  unfold objects_of_type in Hmem.
  destruct (CreateObjectTypeMap objs !! ty) as [l|] eqn:Hlookup; simpl in Hmem.
  - pose proof (CreateObjectTypeMap_nonempty objs ty l Hlookup) as Hne.
    split.
    + split; [done|]. intros Hnone. destruct l as [|o l]; [done|].
      destruct (proj1 (Hmem o) ltac:(left)) as [Ho Hty]. by destruct (Hnone o).
    + by intros l' [= <-].
  - split; [|done]. split; [|done]. intros _ o Ho Hty.
    by apply (elem_of_nil o), Hmem.
Qed.

Lemma find_app_l {A} (p : A → bool) (l1 l2 : list A) (x : A) :
  List.find p l1 = Some x → List.find p (l1 ++ l2) = Some x.
Proof.
  induction l1 as [|y l1 IH]; simpl; [done|]. by destruct (p y).
Qed.

Lemma find_is_Some {A} (p : A → bool) (l : list A) (x : A) :
  x ∈ l → p x = true → ∃ y, List.find p l = Some y.
Proof.
  induction l as [|z l IH]; simpl; [by intros ?%elem_of_nil|].
  intros [->|Hx]%elem_of_cons Hp.
  - rewrite Hp. by eexists.
  - destruct (p z); [by eexists | by apply IH].
Qed.

Lemma find_None_not_elem {A} (p : A → bool) (l : list A) :
  List.find p l = None ↔ ∀ x, x ∈ l → p x = false.
Proof.
  induction l as [|z l IH]; simpl.
  - split; [by intros _ x ?%elem_of_nil | done].
  - destruct (p z) eqn:Hz.
    + split; [done|]. intros H. rewrite (H z) in Hz; [done | left].
    + rewrite IH. split.
      * intros H x [->|Hx]%elem_of_cons; [done | by apply H].
      * intros H x Hx. apply H. by right.
Qed.

(** X4.  The names of the façade's objects are the names of the domain
    constants followed by those of the problem objects; looking up a token
    succeeds exactly for these names, and a name carried by a constant
    resolves to an object built from a constant, also when a problem object
    carries the same name. *)
Theorem registry_names (a : analysis) (d : domain) (p : problem) :
  Stringify_objects (objects_ (Pddl_members a d p))
  = ((getName <$> constants d) ++ (getName <$> objects p))%list
  ∧ (∀ token,
       (∃ o, Object_Parse (Pddl_members a d p) token = Ok o) ↔
       token ∈ ((getName <$> constants d) ++ (getName <$> objects p))%list)
  ∧ (∀ token,
       token ∉ ((getName <$> constants d) ++ (getName <$> objects p))%list →
       Object_Parse (Pddl_members a d p) token = Err (UnknownObject token))
  ∧ (∀ c, c ∈ constants d →
          ∃ c', c' ∈ constants d ∧ getName c' = getName c
                ∧ Object_Parse (Pddl_members a d p) (getName c)
                  = Ok (Object_new (types d) c')).
Proof.
  assert (Stringify_objects (GetObjects d p)
          = ((getName <$> constants d) ++ (getName <$> objects p))%list)
    as Hnames.
  { unfold Stringify_objects, GetObjects, Object_CreateList.
    rewrite fmap_app, <- !list_fmap_compose. done. }
  assert (∀ token,
            (∃ o, Object_Parse (Pddl_members a d p) token = Ok o) ↔
            token ∈ Stringify_objects (GetObjects d p)) as Hlookup.
  { intros token. unfold Object_Parse, Stringify_objects. simpl. split.
    - intros [o Ho].
      destruct (List.find _ (GetObjects d p)) as [o'|] eqn:Hfind; [|done].
      apply find_Some_elem_of in Hfind as [Hin Heq].
      apply bool_decide_eq_true in Heq. subst token.
      by apply list_elem_of_fmap_2.
    - intros (o & -> & Ho)%list_elem_of_fmap.
      destruct (find_is_Some (λ o', bool_decide (Object_name o' = Object_name o))
                  (GetObjects d p) o Ho) as [o' ->];
        [by apply bool_decide_eq_true | by exists o']. }
  rewrite Hnames in Hlookup.
  split; [exact Hnames|]. split; [exact Hlookup|]. split.
  - intros token Hnot. unfold Object_Parse.
    destruct (List.find _ _) as [o|] eqn:Hfind; [|done].
    destruct Hnot. apply Hlookup. exists o. unfold Object_Parse.
    by rewrite Hfind.
  - intros c Hc. unfold Object_Parse. simpl. unfold GetObjects, Object_CreateList.
    destruct (find_is_Some
                (λ o, bool_decide (Object_name o = getName c))
                (Object_new (types d) <$> constants d)
                (Object_new (types d) c)) as [o Hfind].
    { by apply list_elem_of_fmap_2. }
    { by apply bool_decide_eq_true. }
    rewrite (find_app_l _ _ _ _ Hfind).
    apply find_Some_elem_of in Hfind as [Hin Heq].
    apply bool_decide_eq_true in Heq.
    apply list_elem_of_fmap in Hin as (c' & -> & Hc').
    by exists c'.
Qed.

(** ** The initial state *)

(** X5.  When every argument of the problem's initial add effects is a
    declared constant or object, every proposition of the initial state is
    over the façade's object list. *)
Theorem GetInitialState_over_objects (d : domain) (p : problem) :
  (∀ effect arg,
     effect ∈ add_effects (initial_state p) → arg ∈ prop_args effect →
     arg ∈ (constants d ++ objects p)%list) →
  ∀ P, P ∈ GetInitialState d p →
       Forall (λ o, o ∈ GetObjects d p) (Proposition_arguments P).
Proof.
  intros Hdeclared P. rewrite GetInitialState_list_to_set, elem_of_list_to_set.
  intros (effect & -> & Heffect)%list_elem_of_fmap. simpl.
  apply Forall_fmap, Forall_forall. intros arg Harg. simpl.
  unfold GetObjects, Object_CreateList. rewrite <- fmap_app.
  apply list_elem_of_fmap_2. by eapply Hdeclared.
Qed.

Lemma GetInitialState_over_objects_witness :
  Forall (λ effect,
            Forall (λ arg, arg ∈ (constants Blocks.the_domain
                                  ++ objects Blocks.the_problem)%list)
                   (prop_args effect))
         (add_effects (initial_state Blocks.the_problem))
  ∧ Forall (λ P, Forall (λ o, o ∈ GetObjects Blocks.the_domain
                                             Blocks.the_problem)
                        (Proposition_arguments P))
           (elements (GetInitialState Blocks.the_domain Blocks.the_problem)).
Proof.
  assert (Forall (λ effect,
            Forall (λ arg, arg ∈ (constants Blocks.the_domain
                                  ++ objects Blocks.the_problem)%list)
                   (prop_args effect))
         (add_effects (initial_state Blocks.the_problem))) as Hdeclared.
  { apply (bool_decide_eq_true_1 _). vm_compute. reflexivity. }
  split; [exact Hdeclared|].
  apply Forall_forall. intros P HP%elem_of_elements.
  apply (GetInitialState_over_objects Blocks.the_domain Blocks.the_problem);
    [|exact HP].
  intros effect arg Heffect Harg.
  rewrite Forall_forall in Hdeclared. specialize (Hdeclared effect Heffect).
  rewrite Forall_forall in Hdeclared. by apply Hdeclared.
Defined.

(** X6.  The initial state depends on the set of the problem's initial add
    effects only: their order and repetitions do not matter, the delete,
    quantified and conditional effects of the initial-effects list are not
    read, and there are at most as many propositions as add effects. *)
Theorem GetInitialState_add_effects_only (d : domain) (p1 p2 : problem) :
  (∀ effect, effect ∈ add_effects (initial_state p1) ↔
             effect ∈ add_effects (initial_state p2)) →
  GetInitialState d p1 = GetInitialState d p2
  ∧ (size (GetInitialState d p1)
     ≤ length (add_effects (initial_state p1)))%nat.
Proof.
  intros Hsame. rewrite !GetInitialState_list_to_set. split.
  - apply set_eq. intros P. rewrite !elem_of_list_to_set, !list_elem_of_fmap.
    split; intros (effect & -> & Heffect); exists effect;
      (split; [done | by apply Hsame]).
  - etransitivity; [apply size_list_to_set_le|]. by rewrite length_fmap.
Qed.

Lemma GetInitialState_add_effects_only_witness :
  (∀ effect, effect ∈ add_effects (initial_state Blocks.the_problem) ↔
             effect ∈ add_effects (initial_state Variants.shuffled_problem))
  ∧ GetInitialState Blocks.the_domain Blocks.the_problem
    = GetInitialState Blocks.the_domain Variants.shuffled_problem.
Proof.
  assert (∀ effect, effect ∈ add_effects (initial_state Blocks.the_problem) ↔
             effect ∈ add_effects (initial_state Variants.shuffled_problem))
    as Hsame.
  { intros effect. simpl. rewrite !elem_of_cons, !elem_of_nil. tauto. }
  split; [exact Hsame|].
  apply (GetInitialState_add_effects_only Blocks.the_domain
           Blocks.the_problem Variants.shuffled_problem Hsame).
Defined.

(** ** States through text *)

Lemma ParseState_foldR pddl (texts : list string) :
  ∀ X : State,
    match foldR (λ (state : State) str_prop,
                   P ← Proposition_Parse pddl str_prop; Ok ({[P]} ∪ state))
                X texts with
    | Ok Y =>
        Forall (λ t, ∃ P, Proposition_Parse pddl t = Ok P) texts
        ∧ ∀ P, P ∈ Y ↔
               P ∈ X ∨ ∃ t, t ∈ texts ∧ Proposition_Parse pddl t = Ok P
    | Err e => ∃ t, t ∈ texts ∧ Proposition_Parse pddl t = Err e
    end.
Proof.
  induction texts as [|t texts IH]; intros X; cbn [foldR].
  - split; [constructor|]. intros P. split; [by left|].
    intros [?|(t & []%elem_of_nil & _)]. done.
  - destruct (Proposition_Parse pddl t) as [P0|e] eqn:Ht; simpl.
    + specialize (IH ({[P0]} ∪ X)).
      destruct (foldR _ ({[P0]} ∪ X) texts) as [Y|e].
      * destruct IH as [Hall Hmem]. split; [constructor; [by exists P0 | done]|].
        intros P. rewrite Hmem, elem_of_union, elem_of_singleton. split.
        -- intros [[->|HX]|(t' & Ht' & HP)].
           ++ right. exists t. split; [left | done].
           ++ by left.
           ++ right. exists t'. split; [by right | done].
        -- intros [HX|(t' & [->|Ht']%elem_of_cons & HP)].
           ++ left. by right.
           ++ rewrite Ht in HP. injection HP as ->. left. by left.
           ++ right. by exists t'.
      * destruct IH as (t' & Ht' & He). exists t'. split; [by right | done].
    + exists t. split; [left | done].
Qed.

(** X7.  [ParseState] succeeds exactly when every text of the set parses,
    and then returns exactly the set of the parsed propositions (texts that
    denote the same proposition collapse); when it fails, the error is the
    one some text of the set fails with. *)
Theorem ParseState_outcome (pddl : Pddl) (str_state : gset string) :
  (∀ S, ParseState pddl str_state = Ok S ↔
        (∀ t, t ∈ str_state → ∃ P, Proposition_Parse pddl t = Ok P)
        ∧ ∀ P, P ∈ S ↔
               ∃ t, t ∈ str_state ∧ Proposition_Parse pddl t = Ok P)
  ∧ (∀ e, ParseState pddl str_state = Err e →
          ∃ t, t ∈ str_state ∧ Proposition_Parse pddl t = Err e).
Proof.
  unfold ParseState.
  pose proof (ParseState_foldR pddl (std_set_order str_state) ∅) as H.
  destruct (foldR _ ∅ (std_set_order str_state)) as [Y|e].
  - destruct H as [Hall Hmem]. split; [|done]. intros S. split.
    + intros [= <-]. split.
      * intros t Ht. rewrite Forall_forall in Hall.
        by apply Hall, elem_of_std_set_order.
      * intros P. rewrite Hmem. split.
        -- intros [[]%elem_of_empty|(t & Ht%elem_of_std_set_order & HP)].
           by exists t.
        -- intros (t & Ht & HP). right. exists t.
           split; [by apply elem_of_std_set_order | done].
    + intros [_ HS]. f_equal. apply set_eq. intros P. rewrite Hmem, HS. split.
      * intros [[]%elem_of_empty|(t & Ht%elem_of_std_set_order & HP)].
        by exists t.
      * intros (t & Ht & HP). right. exists t.
        split; [by apply elem_of_std_set_order | done].
  - destruct H as (t & Ht%elem_of_std_set_order & He). split.
    + intros S. split; [done|]. intros [Hall _].
      destruct (Hall t Ht) as [P HP]. by rewrite HP in He.
    + intros e' [= <-]. by exists t.
Qed.

(** ** The order of a set of texts *)

Lemma string_compare_not_Gt_trans (s t u : string) :
  String.compare s t ≠ Gt → String.compare t u ≠ Gt →
  String.compare s u ≠ Gt.
Proof.
  revert t u. induction s as [|c1 s IH]; intros [|c2 t] [|c3 u]; simpl;
    try done.
  unfold Ascii.compare.
  destruct (N.compare_spec (N_of_ascii c1) (N_of_ascii c2)) as [H12|H12|H12];
    [|clear IH|done];
    (destruct (N.compare_spec (N_of_ascii c2) (N_of_ascii c3))
       as [H23|H23|H23]; [| |done]); intros Hst Htu.
  - rewrite H12, H23, N.compare_refl. by eapply IH.
  - rewrite H12. by rewrite (proj2 (N.compare_lt_iff _ _) H23).
  - rewrite <- H23. by rewrite (proj2 (N.compare_lt_iff _ _) H12).
  - by rewrite (proj2 (N.compare_lt_iff _ _) (N.lt_trans _ _ _ H12 H23)).
Qed.

Lemma string_le_spec (s t : string) :
  string_le s t ↔ String.compare s t ≠ Gt.
Proof.
  unfold string_le, String.leb. by destruct (String.compare s t).
Qed.

Lemma string_le_trans (s t u : string) :
  string_le s t → string_le t u → string_le s u.
Proof. rewrite !string_le_spec. apply string_compare_not_Gt_trans. Qed.

Lemma string_le_total (s t : string) : string_le s t ∨ string_le t s.
Proof. apply String.leb_total. Qed.

Lemma std_set_order_sorted (str_state : gset string) :
  StronglySorted string_le (std_set_order str_state).
Proof.
  apply StronglySorted_merge_sort.
  - intros s t u. apply string_le_trans.
  - intros s t. apply string_le_total.
Qed.

Lemma foldR_first_error pddl (t : string) (e : Error) (texts : list string) :
  StronglySorted string_le texts →
  t ∈ texts →
  Proposition_Parse pddl t = Err e →
  (∀ t', t' ∈ texts → string_le t' t → t' ≠ t →
         ∃ P, Proposition_Parse pddl t' = Ok P) →
  ∀ X : State,
    foldR (λ (state : State) str_prop,
             P ← Proposition_Parse pddl str_prop; Ok ({[P]} ∪ state))
          X texts = Err e.
Proof.
  induction 1 as [|x texts _ IH Hle]; intros Ht He Hbefore X.
  { by apply elem_of_nil in Ht. }
  cbn [foldR]. destruct (decide (x = t)) as [->|Hne].
  { by rewrite He. }
  apply elem_of_cons in Ht as [->|Ht]; [done|].
  destruct (Hbefore x) as [P HP]; [left | | done |].
  { rewrite Forall_forall in Hle. by apply Hle. }
  rewrite HP. simpl. apply IH; [done | done |].
  intros t' Ht'. apply Hbefore. by right.
Qed.

(** X22.  [ParseState] reads the texts in the order of the set and stops at
    the first that fails: when a text of the set fails to parse and every
    text before it in the order of [std::string] parses, [ParseState] fails
    with the error of that text, whatever the later texts are. *)
Theorem ParseState_first_error (pddl : Pddl) (str_state : gset string)
    (t : string) (e : Error) :
  t ∈ str_state →
  Proposition_Parse pddl t = Err e →
  (∀ t', t' ∈ str_state → string_le t' t → t' ≠ t →
         ∃ P, Proposition_Parse pddl t' = Ok P) →
  ParseState pddl str_state = Err e.
Proof.
  intros Ht He Hbefore. unfold ParseState.
  apply (foldR_first_error pddl t e); [apply std_set_order_sorted | | done |].
  - by apply elem_of_std_set_order.
  - intros t' Ht'%elem_of_std_set_order. by apply Hbefore.
Qed.

Lemma ParseState_first_error_witness :
  "holding(y)" ∈ ({["on-table(x)"; "holding(y)"; "holding(a)"]} : gset string)
  ∧ Proposition_Parse Blocks.pddl "holding(y)" = Err (UnknownObject "y")
  ∧ Proposition_Parse Blocks.pddl "on-table(x)" = Err (UnknownObject "x")
  ∧ ParseState Blocks.pddl {["on-table(x)"; "holding(y)"; "holding(a)"]}
    = Err (UnknownObject "y").
Proof.
  assert ("holding(y)"
          ∈ ({["on-table(x)"; "holding(y)"; "holding(a)"]} : gset string))
    as Ht by by_evaluation.
  assert (Proposition_Parse Blocks.pddl "holding(y)" = Err (UnknownObject "y"))
    as He by (vm_compute; reflexivity).
  split; [exact Ht|]. split; [exact He|].
  split; [vm_compute; reflexivity|].
  apply (ParseState_first_error Blocks.pddl _ "holding(y)" _ Ht He).
  intros t' Ht' Hle Hne.
  apply elem_of_union in Ht' as [Ht'|Ht'];
    [apply elem_of_union in Ht' as [Ht'|Ht']|];
    apply elem_of_singleton in Ht'; subst t'.
  - discriminate Hle.
  - destruct (Hne eq_refl).
  - eexists. vm_compute. reflexivity.
Defined.

Lemma split_head_spec (t h rest : string) :
  split_head t = Some (h, rest) → no_open h = true.
Proof.
  revert h rest. induction t as [|c t IH]; intros h rest; cbn [split_head];
    [done|].
  destruct (Ascii.eqb c "("%char) eqn:Hc; [by intros [= <- _]|].
  destruct (split_head t) as [[h' rest']|]; simpl; [|done].
  intros [= <- <-]. cbn [no_open]. rewrite Hc. simpl. by eapply IH.
Qed.

Lemma split_head_append_open (h rest : string) :
  no_open h = true →
  split_head (h +:+ String "(" rest) = Some (h, rest).
Proof.
  induction h as [|c h IH].
  - intros _. by rewrite append_empty.
  - cbn [no_open]. intros [Hc Hh]%andb_prop. rewrite append_String.
    cbn [split_head]. rewrite (IH Hh).
    by destruct (Ascii.eqb c "("%char).
Qed.

Lemma ParseCall_to_string_open (name : string) (arguments : list Object) :
  no_open name = true →
  Forall (λ o, ident_ok (Object_name o) = true) arguments →
  ParseCall (call_to_string name arguments)
  = Ok (name, Object_name <$> arguments).
Proof.
  intros Hname Hargs. unfold ParseCall, call_to_string.
  change (name +:+ "(" +:+ ?x) with (name +:+ String "(" x).
  rewrite split_head_append_open by done.
  change (?x +:+ ")") with (x +:+ String ")" EmptyString).
  rewrite strip_close_append.
  destruct arguments as [|o arguments]; [done|].
  assert (String.concat ", " (Object_name <$> o :: arguments) ≠ EmptyString)
    as Hne.
  { apply concat_nonempty, ident_ok_nonempty. by inversion Hargs. }
  destruct (String.concat ", " (Object_name <$> o :: arguments)) as [|c s] eqn:E;
    [done|].
  rewrite <- E. rewrite split_commas_concat; [done | | done].
  by apply Forall_fmap.
Qed.

Lemma ParseCall_head_open (text h : string) (tokens : list string) :
  ParseCall text = Ok (h, tokens) → no_open h = true.
Proof.
  unfold ParseCall.
  destruct (split_head text) as [[h' rest]|] eqn:Hsplit; [|done].
  apply split_head_spec in Hsplit.
  destruct (strip_close rest) as [[|c inner]|]; [| |done];
    by intros [= <- _].
Qed.

(** A proposition read from a text is printed to a text that reads back as
    that proposition. *)
Lemma Proposition_Parse_canonical pddl (text : string) (P : Proposition) :
  NoDup (Object_name <$> objects_ pddl) →
  Forall (λ o, ident_ok (Object_name o) = true) (objects_ pddl) →
  Proposition_Parse pddl text = Ok P →
  Proposition_Parse pddl (Proposition_to_string P) = Ok P.
Proof.
  intros Hnd Hident Hparse. unfold Proposition_Parse in Hparse.
  bind_inv Hparse. destruct r as [h tokens]. bind_inv Hparse.
  injection Hparse as <-.
  apply ParseCall_head_open in E.
  apply mapR_Object_Parse_registered in E0 as [Hobjs _].
  unfold Proposition_Parse, Proposition_to_string. simpl.
  rewrite ParseCall_to_string_open; [|done|].
  - simpl. by rewrite mapR_Object_Parse_names.
  - rewrite Forall_forall in Hobjs, Hident |- *.
    intros o Ho. by apply Hident, Hobjs.
Qed.

(** X8.  With object names that are proper and pairwise distinct, a state
    read from any set of texts survives the round trip: its canonical text
    form parses back to it, proposition by proposition. *)
Theorem ParseState_canonical (pddl : Pddl) (str_state : gset string)
    (S : State) :
  NoDup (Object_name <$> objects_ pddl) →
  Forall (λ o, ident_ok (Object_name o) = true) (objects_ pddl) →
  ParseState pddl str_state = Ok S →
  ParseState pddl (Stringify S) = Ok S
  ∧ ∀ P, P ∈ S → Proposition_Parse pddl (Proposition_to_string P) = Ok P.
Proof.
  intros Hnd Hident Hparse.
  assert (∀ P, P ∈ S →
            Proposition_Parse pddl (Proposition_to_string P) = Ok P) as Hround.
  { intros P HP. unfold ParseState in Hparse.
    pose proof (ParseState_foldR pddl (std_set_order str_state) ∅) as H.
    rewrite Hparse in H. destruct H as [_ Hmem].
    apply Hmem in HP as [[]%elem_of_empty|(t & _ & Ht)].
    by eapply Proposition_Parse_canonical. }
  split; [by apply ParseState_Stringify_round | done].
Qed.

Lemma ParseState_canonical_witness :
  NoDup (Object_name <$> objects_ Blocks.pddl)
  ∧ Forall (λ o, ident_ok (Object_name o) = true) (objects_ Blocks.pddl)
  ∧ ParseState Blocks.pddl Variants.free_text = Ok Variants.free_state
  ∧ ParseState Blocks.pddl (Stringify Variants.free_state)
    = Ok Variants.free_state.
Proof.
  assert (NoDup (Object_name <$> objects_ Blocks.pddl)) as Hnd by by_evaluation.
  assert (Forall (λ o, ident_ok (Object_name o) = true) (objects_ Blocks.pddl))
    as Hident by by_evaluation.
  assert (ParseState Blocks.pddl Variants.free_text = Ok Variants.free_state)
    as Hparse by by_evaluation.
  split; [exact Hnd|]. split; [exact Hident|]. split; [exact Hparse|].
  apply (ParseState_canonical Blocks.pddl Variants.free_text
           Variants.free_state Hnd Hident Hparse).
Defined.

(** Every proposition of a state the façade hands out or reads is read back
    from its text. *)
Lemma facade_state_round pddl (S : State) :
  wf_pddl pddl = true → facade_state pddl S →
  state_over (λ P, Proposition_Parse pddl (Proposition_to_string P) = Ok P) S.
Proof.
  intros Hwf. pose proof Hwf as (Hnd & Hident & _)%wf_pddl_spec.
  induction 1 as [|str_state S Hparse|S action_call S' _ IH Hnext].
  - apply wf_pddl_spec in Hwf as (_ & _ & _ & _ & _ & _ & Hinit).
    intros P HP. apply Proposition_Parse_to_string; [done | done |].
    by apply Hinit.
  - intros P HP. unfold ParseState in Hparse.
    pose proof (ParseState_foldR pddl (std_set_order str_state) ∅) as H.
    rewrite Hparse in H. destruct H as [_ Hmem].
    apply Hmem in HP as [[]%elem_of_empty|(t & _ & Ht)].
    by eapply Proposition_Parse_canonical.
  - pose proof Hnext as Hnext'. unfold NextState in Hnext'.
    bind_inv Hnext'. destruct r as [action arguments].
    destruct (NextState_wf pddl
                (λ P, Proposition_Parse pddl (Proposition_to_string P) = Ok P)
                S action_call action arguments)
      as (S'' & HS'' & Hround); try done.
    { intros P HP. by apply Proposition_Parse_to_string. }
    rewrite Hnext in HS''. by injection HS'' as <-.
Qed.

(** C3.  In a validated façade, for every state the façade hands out or
    reads (its initial state, a state [ParseState] returns, a successor by
    [NextState]) the text overload of [NextState] on the text form returns
    the text form of what the pure overload returns, errors included. *)
Theorem NextState_str_Stringify (pddl : Pddl) (S : State)
    (action_call : string) :
  wf_pddl pddl = true →
  facade_state pddl S →
  NextState_str pddl (Stringify S) action_call
  = Stringify <$> NextState pddl S action_call.
Proof.
  intros Hwf HS. apply NextState_str_round, ParseState_Stringify_round.
  by apply facade_state_round.
Qed.

Lemma NextState_str_Stringify_witness :
  wf_pddl Blocks.pddl = true
  ∧ facade_state Blocks.pddl Blocks.holding_a
  ∧ NextState_str Blocks.pddl (Stringify Blocks.holding_a) "put-down(a)"
    = Stringify <$> NextState Blocks.pddl Blocks.holding_a "put-down(a)".
Proof.
  assert (wf_pddl Blocks.pddl = true) as Hwf by (vm_compute; reflexivity).
  assert (facade_state Blocks.pddl Blocks.holding_a) as Hstate.
  { apply (facade_next Blocks.pddl (initial_state_ Blocks.pddl)
             "pick-up(a)"); [apply facade_initial | by_evaluation]. }
  split; [exact Hwf|]. split; [exact Hstate|].
  exact (NextState_str_Stringify Blocks.pddl Blocks.holding_a "put-down(a)"
           Hwf Hstate).
Defined.

Lemma size_list_to_set_le_string (l : list string) :
  (size (list_to_set l : gset string) ≤ length l)%nat.
Proof.
  induction l as [|t l IH].
  { rewrite list_to_set_nil, size_empty. simpl. lia. }
  rewrite list_to_set_cons, size_union_alt, size_singleton. simpl.
  pose proof (subseteq_size (list_to_set l ∖ {[t]}) (list_to_set l : gset string)
                ltac:(set_solver)).
  lia.
Qed.

Lemma Stringify_size_le (S : State) : (size (Stringify S) ≤ size S)%nat.
Proof.
  unfold Stringify, set_map.
  etransitivity; [apply size_list_to_set_le_string|].
  by rewrite length_fmap.
Qed.

Lemma Stringify_size_round pddl (S : State) :
  (∀ P, P ∈ S → Proposition_Parse pddl (Proposition_to_string P) = Ok P) →
  size (Stringify S) = size S.
Proof.
  intros Hround. unfold Stringify, set_map.
  rewrite size_list_to_set; [by rewrite length_fmap|].
  apply NoDup_fmap_2_strong; [|apply NoDup_elements].
  intros P P' HP%elem_of_elements HP'%elem_of_elements Heq.
  by apply (ParseState_fold_inj pddl S).
Qed.

(** X9.  [Stringify] maps the empty state to the empty set, a union to the
    union and a larger state to a larger set, and never yields more texts
    than there are propositions; on states over a registry with proper and
    pairwise distinct names it loses nothing: as many texts as propositions,
    and equal text forms only for equal states. *)
Theorem Stringify_structure (pddl : Pddl) (S1 S2 : State) :
  Stringify ∅ = ∅
  ∧ Stringify (S1 ∪ S2) = Stringify S1 ∪ Stringify S2
  ∧ (S1 ⊆ S2 → Stringify S1 ⊆ Stringify S2)
  ∧ (size (Stringify S1) ≤ size S1)%nat
  ∧ (NoDup (Object_name <$> objects_ pddl) →
     Forall (λ o, ident_ok (Object_name o) = true) (objects_ pddl) →
     state_registered pddl S1 → state_registered pddl S2 →
     size (Stringify S1) = size S1
     ∧ (Stringify S1 = Stringify S2 → S1 = S2)).
Proof.
  split; [apply set_map_empty|]. split; [apply set_map_union_L|].
  split; [intros Hsub; by apply set_map_mono|].
  split; [apply Stringify_size_le|].
  intros Hnd Hident HS1 HS2.
  assert (∀ S, state_registered pddl S →
            ∀ P, P ∈ S →
                 Proposition_Parse pddl (Proposition_to_string P) = Ok P)
    as Hround.
  { intros S HS P HP. apply Proposition_Parse_to_string; [done | done|].
    by apply HS. }
  split; [by eapply Stringify_size_round, Hround|].
  intros Heq.
  pose proof (ParseState_Stringify_round pddl S1 (Hround S1 HS1)) as H1.
  pose proof (ParseState_Stringify_round pddl S2 (Hround S2 HS2)) as H2.
  rewrite Heq, H2 in H1. by injection H1.
Qed.

Lemma Stringify_structure_witness :
  NoDup (Object_name <$> objects_ Blocks.pddl)
  ∧ Forall (λ o, ident_ok (Object_name o) = true) (objects_ Blocks.pddl)
  ∧ state_registered Blocks.pddl Blocks.holding_a
  ∧ state_registered Blocks.pddl Blocks.holding_both
  ∧ size (Stringify Blocks.holding_a) = size Blocks.holding_a.
Proof.
  assert (NoDup (Object_name <$> objects_ Blocks.pddl)) as Hnd by by_evaluation.
  assert (Forall (λ o, ident_ok (Object_name o) = true) (objects_ Blocks.pddl))
    as Hident by by_evaluation.
  assert (∀ S : State, forallb (registered Blocks.pddl) (elements S) = true →
                       state_registered Blocks.pddl S) as Hreg.
  { intros S HS P HP. apply forallb_Forall in HS.
    rewrite Forall_forall in HS. by apply HS, elem_of_elements. }
  assert (state_registered Blocks.pddl Blocks.holding_a) as Ha
    by (apply Hreg; vm_compute; reflexivity).
  assert (state_registered Blocks.pddl Blocks.holding_both) as Hb
    by (apply Hreg; vm_compute; reflexivity).
  split; [exact Hnd|]. split; [exact Hident|]. split; [exact Ha|].
  split; [exact Hb|].
  apply (proj2 (proj2 (proj2 (proj2
           (Stringify_structure Blocks.pddl Blocks.holding_a
                                Blocks.holding_both)))) Hnd Hident Ha Hb).
Defined.

(** ** Transitions and plans *)

Lemma ListValidActions_listed pddl (state : State) l t :
  wf_pddl pddl = true →
  ListValidActions pddl state = Ok l → t ∈ l →
  ∃ action arguments,
    Action_Parse pddl t = Ok (action, arguments)
    ∧ Action_IsValid pddl action state arguments = Ok true.
Proof.
  intros Hwf ->%ListValidActions_spec.
  rewrite (flat_map_pairs_fmap Action_to_string), list_elem_of_fmap.
  intros ([a args] & -> & [Ha Hargs]%elem_of_flat_map_pairs). simpl in *.
  apply elem_of_valid_arguments in Hargs as [Hgen Hvalid].
  exists a, args. split; [|done].
  pose proof Hwf as (_ & _ & Hmap & _)%wf_pddl_spec.
  apply ParameterGenerator_registered in Hgen as [Hlen Hobjs]; [|done].
  by apply Action_Parse_to_string.
Qed.

(** X12.  In a validated façade every action listed by [ListValidActions]
    has exactly one successor accepted by [IsValidTuple], the state
    [NextState] returns. *)
Theorem listed_action_successor (pddl : Pddl) (state : State)
    (l : list string) (t : string) :
  wf_pddl pddl = true →
  ListValidActions pddl state = Ok l →
  t ∈ l →
  ∃ successor,
    NextState pddl state t = Ok successor
    ∧ IsValidTuple pddl state t successor = Ok true
    ∧ ∀ other, IsValidTuple pddl state t other = Ok true → other = successor.
Proof.
  intros Hwf Hl Ht.
  destruct (ListValidActions_listed pddl state l t Hwf Hl Ht)
    as (action & arguments & Hparse & Hvalid).
  destruct (NextState_wf pddl (λ _, True) state t action arguments)
    as (successor & Hnext & _); try done.
  exists successor. split; [done|].
  unfold IsValidTuple. unfold NextState in Hnext.
  rewrite Hparse in Hnext |- *. simpl in *. rewrite Hvalid. simpl.
  rewrite Hnext. simpl. split.
  - by rewrite bool_decide_eq_true_2.
  - by intros other [= ->%bool_decide_eq_true].
Qed.

Lemma listed_action_successor_witness :
  wf_pddl Blocks.pddl = true
  ∧ ListValidActions Blocks.pddl (initial_state_ Blocks.pddl)
    = Ok ["pick-up(a)"; "pick-up(b)"]
  ∧ "pick-up(a)" ∈ ["pick-up(a)"; "pick-up(b)"]
  ∧ ∃ successor,
      NextState Blocks.pddl (initial_state_ Blocks.pddl) "pick-up(a)"
      = Ok successor
      ∧ IsValidTuple Blocks.pddl (initial_state_ Blocks.pddl) "pick-up(a)"
                     successor = Ok true.
Proof.
  assert (wf_pddl Blocks.pddl = true) as Hwf by (vm_compute; reflexivity).
  assert (ListValidActions Blocks.pddl (initial_state_ Blocks.pddl)
          = Ok ["pick-up(a)"; "pick-up(b)"]) as Hl by by_evaluation.
  assert ("pick-up(a)" ∈ ["pick-up(a)"; "pick-up(b)"]) as Ht by left.
  split; [exact Hwf|]. split; [exact Hl|]. split; [exact Ht|].
  destruct (listed_action_successor Blocks.pddl (initial_state_ Blocks.pddl)
              _ _ Hwf Hl Ht) as (successor & Hnext & Htuple & _).
  exists successor. split; [exact Hnext | exact Htuple].
Defined.

Lemma plan_fold_app pddl (first rest : list string) :
  ∀ state reached,
    plan_run pddl state first reached →
    plan_fold pddl state (first ++ rest) = plan_fold pddl reached rest.
Proof.
  induction first as [|t first IH]; intros state reached Hrun.
  - by inversion Hrun; subst.
  - inversion Hrun as [|? ? S1 ? ? Hvalid Hnext Hrest]; subst. simpl.
    rewrite Hvalid. simpl. rewrite Hnext. simpl. by apply IH.
Qed.

Lemma plan_fold_app_true pddl (first rest : list string) :
  ∀ state,
    plan_fold pddl state (first ++ rest) = Ok true →
    ∃ reached, plan_run pddl state first reached
               ∧ plan_fold pddl reached rest = Ok true.
Proof.
  induction first as [|t first IH]; intros state; simpl.
  - intros H. exists state. split; [constructor | done].
  - intros H. bind_inv H. destruct r; [|done]. bind_inv H.
    apply IH in H as (reached & Hrun & Hrest).
    exists reached. split; [by econstructor | done].
Qed.

(** X13.  Plans compose: after a prefix all of whose actions are valid,
    [IsValidPlan] on the whole plan is the plan loop on the rest from the
    state the prefix reaches; and a valid plan has every prefix executable,
    its rest being a valid plan from the state reached. *)
Theorem IsValidPlan_app (pddl : Pddl) (first rest : list string) :
  (∀ reached,
     plan_run pddl (initial_state_ pddl) first reached →
     IsValidPlan pddl (first ++ rest) = IsValidPlan_from pddl reached rest)
  ∧ (IsValidPlan pddl (first ++ rest) = Ok true →
     ∃ reached,
       plan_run pddl (initial_state_ pddl) first reached
       ∧ IsValidPlan_from pddl reached rest = Ok true).
Proof.
  unfold IsValidPlan. split.
  - intros reached Hrun. rewrite !IsValidPlan_from_fold.
    by apply plan_fold_app.
  - rewrite IsValidPlan_from_fold. intros H.
    apply plan_fold_app_true in H as (reached & Hrun & Hrest).
    exists reached. split; [done|]. by rewrite IsValidPlan_from_fold.
Qed.

Lemma IsValidPlan_app_witness :
  plan_run Blocks.pddl (initial_state_ Blocks.pddl)
           ["pick-up(a)"; "put-down(a)"] Variants.after_put_down
  ∧ IsValidPlan Blocks.pddl (["pick-up(a)"; "put-down(a)"] ++ ["pick-up(b)"])
    = IsValidPlan_from Blocks.pddl Variants.after_put_down ["pick-up(b)"].
Proof.
  assert (plan_run Blocks.pddl (initial_state_ Blocks.pddl)
            ["pick-up(a)"; "put-down(a)"] Variants.after_put_down) as Hrun.
  { apply (plan_run_cons Blocks.pddl _ _ Blocks.holding_a);
      [by_evaluation | by_evaluation|].
    apply (plan_run_cons Blocks.pddl _ _ Variants.after_put_down);
      [by_evaluation | by_evaluation | apply plan_run_nil]. }
  split; [exact Hrun|].
  apply (proj1 (IsValidPlan_app Blocks.pddl ["pick-up(a)"; "put-down(a)"]
                  ["pick-up(b)"]) _ Hrun).
Defined.

(** ** Grounding *)

Lemma param_objects_typed (objs : list Object) (param : parameter_symbol)
    (o : Object) :
  o ∈ param_objects (CreateObjectTypeMap objs) param →
  o ∈ objs ∧ ∃ ty, ty ∈ sym_types param ∧ ty ∈ ListTypes o.
Proof.
  unfold param_objects. intros [Ho _]%union_first_elem_of.
  apply list_elem_of_In, in_flat_map in Ho as (ty & Hty & Ho).
  apply list_elem_of_In, CreateObjectTypeMap_members in Ho as [Ho Htyo].
  split; [done|]. exists ty. split; [by apply list_elem_of_In | done].
Qed.

(** X14.  In a constructed façade every argument tuple returned by
    [ListValidArguments] has one argument per parameter of the action, each
    an object of the façade's object list that satisfies one of the types
    of its parameter, and the action is valid for the tuple. *)
Theorem ListValidArguments_typed (a : analysis) (d : domain) (p : problem)
    (state : State) (action : Action) (l : list (list Object))
    (arguments : list Object) :
  ListValidArguments (Pddl_members a d p) state action = Ok l →
  arguments ∈ l →
  Forall2 (λ o param,
             o ∈ GetObjects d p
             ∧ ∃ ty, ty ∈ sym_types param ∧ ty ∈ ListTypes o)
          arguments (Action_parameters action)
  ∧ Action_IsValid (Pddl_members a d p) action state arguments = Ok true.
Proof.
  intros ->%ListValidArguments_spec [Hgen Hvalid]%elem_of_valid_arguments.
  split; [|done]. unfold ParameterGenerator in Hgen.
  apply product_spec in Hgen. rewrite Forall2_fmap_r in Hgen. simpl in Hgen.
  eapply Forall2_impl; [exact Hgen|]. intros o param Ho.
  by apply param_objects_typed.
Qed.

Lemma ListValidArguments_typed_witness :
  ListValidArguments Blocks.pddl (initial_state_ Blocks.pddl)
                     (Action_new Blocks.pick_up)
  = Ok [[Blocks.obj Blocks.a]; [Blocks.obj Blocks.b]]
  ∧ [Blocks.obj Blocks.b] ∈ [[Blocks.obj Blocks.a]; [Blocks.obj Blocks.b]]
  ∧ Forall2 (λ o param,
               o ∈ GetObjects Blocks.the_domain Blocks.the_problem
               ∧ ∃ ty, ty ∈ sym_types param ∧ ty ∈ ListTypes o)
            [Blocks.obj Blocks.b] (Action_parameters (Action_new Blocks.pick_up)).
Proof.
  assert (ListValidArguments Blocks.pddl (initial_state_ Blocks.pddl)
                     (Action_new Blocks.pick_up)
          = Ok [[Blocks.obj Blocks.a]; [Blocks.obj Blocks.b]]) as Hl
    by by_evaluation.
  assert ([Blocks.obj Blocks.b]
          ∈ [[Blocks.obj Blocks.a]; [Blocks.obj Blocks.b]]) as Hin
    by (right; left).
  split; [exact Hl|]. split; [exact Hin|].
  apply (ListValidArguments_typed _ Blocks.the_domain Blocks.the_problem
           _ _ _ _ Hl Hin).
Defined.

(** X15.  In a validated façade every row of names returned by the text
    overload of [ListValidArguments] has one name per parameter of the named
    action and, written as a call of that action, is a valid action in the
    state the text denotes; an action name that is not in the action list
    fails with [UnknownAction]. *)
Theorem ListValidArguments_str_rows (pddl : Pddl) (str_state : gset string)
    (state : State) (action_name : string) :
  wf_pddl pddl = true →
  ParseState pddl str_state = Ok state →
  (∀ rows row,
     ListValidArguments_str pddl str_state action_name = Ok rows →
     row ∈ rows →
     IsValidAction pddl state
       (action_name +:+ "(" +:+ String.concat ", " row +:+ ")") = Ok true
     ∧ ∃ action, action ∈ actions_ pddl ∧ Action_name action = action_name
                 ∧ length row = length (Action_parameters action))
  ∧ (action_name ∉ Stringify_actions (actions_ pddl) →
     ListValidArguments_str pddl str_state action_name
     = Err (UnknownAction action_name)).
Proof.
  intros Hwf Hstate.
  unfold ListValidArguments_str, Action_of_name. rewrite Hstate. simpl.
  split.
  - intros rows row Hrows Hrow.
    destruct (List.find _ (actions_ pddl)) as [action|] eqn:Hfind; [|done].
    simpl in Hrows.
    apply find_Some_elem_of in Hfind as [Haction Hname].
    apply bool_decide_eq_true in Hname. subst action_name.
    bind_inv Hrows. injection Hrows as <-.
    apply ListValidArguments_spec in E as ->.
    unfold Stringify_arguments in Hrow.
    apply list_elem_of_fmap in Hrow as (arguments & -> & Hargs).
    apply elem_of_valid_arguments in Hargs as [Hgen Hvalid].
    pose proof Hwf as (_ & _ & Hmap & _)%wf_pddl_spec.
    apply ParameterGenerator_registered in Hgen as [Hlen Hobjs]; [|done].
    split.
    + unfold IsValidAction.
      change (Action_name action +:+ "(" +:+
              String.concat ", " (Object_name <$> arguments) +:+ ")")
        with (Action_to_string action arguments).
      by rewrite Action_Parse_to_string.
    + exists action. by rewrite length_fmap.
  - intros Hunknown.
    destruct (List.find _ (actions_ pddl)) as [action|] eqn:Hfind; [|done].
    apply find_Some_elem_of in Hfind as [Haction Hname].
    apply bool_decide_eq_true in Hname. destruct Hunknown.
    unfold Stringify_actions. rewrite <- Hname. by apply list_elem_of_fmap_2.
Qed.

Lemma ListValidArguments_str_rows_witness :
  wf_pddl Blocks.pddl = true
  ∧ ParseState Blocks.pddl (Stringify (initial_state_ Blocks.pddl))
    = Ok (initial_state_ Blocks.pddl)
  ∧ ListValidArguments_str Blocks.pddl
      (Stringify (initial_state_ Blocks.pddl)) "pick-up" = Ok [["a"]; ["b"]]
  ∧ IsValidAction Blocks.pddl (initial_state_ Blocks.pddl)
      ("pick-up" +:+ "(" +:+ String.concat ", " ["b"] +:+ ")") = Ok true.
Proof.
  assert (wf_pddl Blocks.pddl = true) as Hwf by (vm_compute; reflexivity).
  assert (ParseState Blocks.pddl (Stringify (initial_state_ Blocks.pddl))
          = Ok (initial_state_ Blocks.pddl)) as Hstate by by_evaluation.
  assert (ListValidArguments_str Blocks.pddl
            (Stringify (initial_state_ Blocks.pddl)) "pick-up"
          = Ok [["a"]; ["b"]]) as Hrows by by_evaluation.
  split; [exact Hwf|]. split; [exact Hstate|]. split; [exact Hrows|].
  apply (proj1 (ListValidArguments_str_rows Blocks.pddl _ _ "pick-up"
                  Hwf Hstate) _ ["b"] Hrows).
  right; left.
Defined.

(** ** The changed flag and the closure *)

Lemma foldR_inv {A B} (I : B → Prop) (f : B → A → Result B) (l : list A) :
  Forall (λ x, ∀ b b', I b → f b x = Ok b' → I b') l →
  ∀ b b', I b → foldR f b l = Ok b' → I b'.
Proof.
  induction 1 as [|x l Hx _ IH]; intros b b' Hb; cbn [foldR].
  - by intros [= <-].
  - intros H. bind_inv H. eapply IH; [|done]. by eapply Hx.
Qed.

Lemma flag_invariant_insert (S0 : State) (st : bool * State) (P : Proposition) :
  flag_invariant S0 st →
  flag_invariant S0 (st.1 || bool_decide (P ∉ st.2), {[P]} ∪ st.2).
Proof.
  unfold flag_invariant. simpl.
  intros Hst [Hflag HP%bool_decide_eq_false]%orb_false_elim.
  rewrite <- (Hst Hflag). apply dec_stable in HP. set_solver.
Qed.

Lemma flag_invariant_delete (S0 : State) (st : bool * State) (P : Proposition) :
  flag_invariant S0 st →
  flag_invariant S0 (st.1 || bool_decide (P ∈ st.2), st.2 ∖ {[P]}).
Proof.
  unfold flag_invariant. simpl.
  intros Hst [Hflag HP%bool_decide_eq_false]%orb_false_elim.
  rewrite <- (Hst Hflag). set_solver.
Qed.

Lemma apply_effects_inplace_flag pddl (pre S0 : State) (effs : effect_lists) :
  ∀ σ st st',
    flag_invariant S0 st →
    apply_effects_inplace pddl pre effs σ st = Ok st' →
    flag_invariant S0 st'.
Proof.
  induction effs as [adds dels foralls conds IHf IHc]
    using effect_lists_nested_ind.
  intros σ st st' Hst.
  cbn [apply_effects_inplace add_effects del_effects cond_effects
       forall_effects].
  intros H. bind_inv H. bind_inv H. bind_inv H.
  assert (flag_invariant S0 r) as Hr.
  { eapply (foldR_inv (flag_invariant S0)); [|exact Hst|exact E].
    apply Forall_forall. intros p _ b b' Hb Hstep. bind_inv Hstep.
    injection Hstep as <-. by apply flag_invariant_insert. }
  assert (flag_invariant S0 r0) as Hr0.
  { eapply (foldR_inv (flag_invariant S0)); [|exact Hr|exact E0].
    apply Forall_forall. intros p _ b b' Hb Hstep. bind_inv Hstep.
    injection Hstep as <-. by apply flag_invariant_delete. }
  assert (flag_invariant S0 r1) as Hr1.
  { eapply (foldR_inv (flag_invariant S0)); [|exact Hr0|exact E1].
    eapply Forall_impl; [exact IHc|]. intros ce IH b b' Hb Hstep.
    simpl in Hstep. bind_inv Hstep. destruct r2.
    - by eapply IH.
    - by injection Hstep as <-. }
  eapply (foldR_inv (flag_invariant S0)); [|exact Hr1|exact H].
  eapply Forall_impl; [exact IHf|]. intros fe IH b b' Hb Hstep.
  eapply (foldR_inv (flag_invariant S0)); [|exact Hb|exact Hstep].
  apply Forall_forall. intros t _ b1 b1' Hb1 Hstep1. by eapply IH.
Qed.

Lemma DerivedPredicate_pass_flag pddl predicates (S0 : State) st :
  DerivedPredicate_pass pddl predicates S0 = Ok st → flag_invariant S0 st.
Proof.
  unfold DerivedPredicate_pass.
  apply (foldR_inv (flag_invariant S0)); [|done].
  apply Forall_forall. intros pred _ b b' Hb.
  unfold DerivedPredicate_derive.
  apply (foldR_inv (flag_invariant S0)); [|done].
  apply Forall_forall. intros t _ b1 b1' Hb1 Hstep. bind_inv Hstep.
  destruct r.
  - injection Hstep as <-. by apply flag_invariant_insert.
  - by injection Hstep as <-.
Qed.

Lemma closure_loop_flag pddl predicates :
  ∀ passes (S0 : State) st,
    closure_loop passes pddl predicates S0 = Ok st → flag_invariant S0 st.
Proof.
  intros [|n] S0 st; simpl; [done|]. intros H. bind_inv H.
  destruct r as [[] s]; simpl in H.
  - bind_inv H. by injection H as <-.
  - injection H as <-. by apply DerivedPredicate_pass_flag in E.
Qed.

(** A state the closure returns is a fixed point of the pass. *)
Lemma closure_loop_fixed pddl predicates :
  ∀ passes (S0 : State) st,
    closure_loop passes pddl predicates S0 = Ok st →
    DerivedPredicate_pass pddl predicates st.2 = Ok (false, st.2).
Proof.
  induction passes as [|n IH]; intros S0 st; simpl; [done|].
  intros H. bind_inv H. destruct r as [[] s]; simpl in H.
  - bind_inv H. injection H as <-. simpl. by eapply IH.
  - injection H as <-. simpl.
    pose proof (DerivedPredicate_pass_flag _ _ _ _ E eq_refl) as Hs.
    cbn in Hs. subst S0. exact E.
Qed.

Lemma DerivedPredicate_Apply_fixed pddl predicates (S0 : State) st :
  DerivedPredicate_Apply pddl predicates S0 = Ok st →
  DerivedPredicate_Apply pddl predicates st.2 = Ok (false, st.2).
Proof.
  intros H%closure_loop_fixed. unfold DerivedPredicate_Apply, closure_bound.
  simpl. by rewrite H.
Qed.

(** X16.  The two file-local [Apply] overloads agree: the in-place one
    leaves the caller's state as the state the pure one returns, with the
    same errors; and when its flag is false the state has not changed. *)
Theorem Apply_overloads (pddl : Pddl) (state : State) (action : Action)
    (arguments : list Object) (predicates : list DerivedPredicate) :
  snd <$> Apply_inplace pddl action arguments predicates state
  = Apply pddl state action arguments predicates
  ∧ ∀ state',
      Apply_inplace pddl action arguments predicates state
      = Ok (false, state') →
      state' = state
      ∧ Apply pddl state action arguments predicates = Ok state.
Proof.
  split; [apply Apply_inplace_state|].
  intros state' H.
  assert (state' = state) as ->.
  { unfold Apply_inplace in H. bind_inv H. bind_inv H.
    injection H as Hflag <-. apply orb_false_elim in Hflag as [Hf1 Hf2].
    unfold Action_Apply_inplace in E.
    apply (apply_effects_inplace_flag _ _ state) in E; [|done].
    unfold DerivedPredicate_Apply in E0. apply closure_loop_flag in E0.
    rewrite (E0 Hf2). by apply E. }
  split; [done|]. rewrite <- Apply_inplace_state. by rewrite H.
Qed.

(** X17.  Every state [NextState] returns is closed under the derived
    predicates: running the closure on it again adds nothing and reports no
    change. *)
Theorem NextState_closed (pddl : Pddl) (state : State) (action_call : string)
    (next_state : State) :
  NextState pddl state action_call = Ok next_state →
  DerivedPredicate_Apply pddl (derived_predicates_ pddl) next_state
  = Ok (false, next_state).
Proof.
  unfold NextState, Apply. intros H. bind_inv H.
  destruct r as [action arguments]. bind_inv H. bind_inv H.
  injection H as <-. by apply DerivedPredicate_Apply_fixed in E1.
Qed.

Lemma NextState_closed_witness :
  NextState Blocks.pddl (initial_state_ Blocks.pddl) "pick-up(a)"
  = Ok Blocks.holding_a
  ∧ DerivedPredicate_Apply Blocks.pddl (derived_predicates_ Blocks.pddl)
                           Blocks.holding_a
    = Ok (false, Blocks.holding_a).
Proof.
  assert (NextState Blocks.pddl (initial_state_ Blocks.pddl) "pick-up(a)"
          = Ok Blocks.holding_a) as Hnext by by_evaluation.
  split; [exact Hnext|].
  apply (NextState_closed Blocks.pddl _ _ _ Hnext).
Defined.

(** ** Operators that are not actions *)

Lemma GetActions_elem_of (d : domain) (action : Action) :
  action ∈ GetActions d ↔
  ∃ op, op ∈ ops d ∧ op_class op = class_action ∧ action = Action_new op.
Proof.
  unfold GetActions. rewrite list_elem_of_fmap. split.
  - intros (op & -> & [Hclass Hop]%list_elem_of_filter). by exists op.
  - intros (op & Hop & Hclass & ->). exists op. split; [done|].
    by apply list_elem_of_filter.
Qed.

(** X18.  In a constructed façade an action call only ever resolves to an
    operator of the domain that is an action, with as many arguments as the
    operator has parameters; a call whose name is carried by no such
    operator, an axiom's or another kind of operator's name included, makes
    [NextState], [IsValidAction], [IsValidTuple] and [IsValidPlan] fail with
    [UnknownAction]. *)
Theorem only_actions_are_called (a : analysis) (d : domain) (p : problem)
    (action_call : string) :
  (∀ action arguments,
     Action_Parse (Pddl_members a d p) action_call = Ok (action, arguments) →
     ∃ op, op ∈ ops d ∧ op_class op = class_action ∧ action = Action_new op
           ∧ length arguments = length (op_parameters op))
  ∧ (∀ h tokens,
       ParseCall action_call = Ok (h, tokens) →
       (∀ op, op ∈ ops d → op_class op = class_action → op_name op ≠ h) →
       ∀ state,
         NextState (Pddl_members a d p) state action_call
         = Err (UnknownAction h)
         ∧ IsValidAction (Pddl_members a d p) state action_call
           = Err (UnknownAction h)
         ∧ (∀ next_state,
              IsValidTuple (Pddl_members a d p) state action_call next_state
              = Err (UnknownAction h))
         ∧ ∀ rest, IsValidPlan (Pddl_members a d p) (action_call :: rest)
                   = Err (UnknownAction h)).
Proof.
  split.
  - intros action arguments (Haction & _ & Hlen)%Action_Parse_spec.
    simpl in Haction. apply GetActions_elem_of in Haction
      as (op & Hop & Hclass & ->).
    by exists op.
  - intros h tokens Hcall Hnone state.
    assert (Action_Parse (Pddl_members a d p) action_call
            = Err (UnknownAction h)) as Hparse.
    { unfold Action_Parse. rewrite Hcall. simpl.
      destruct (List.find _ (GetActions d)) as [action|] eqn:Hfind; [|done].
      apply find_Some_elem_of in Hfind as [Haction Hname].
      apply bool_decide_eq_true in Hname.
      apply GetActions_elem_of in Haction as (op & Hop & Hclass & ->).
      by destruct (Hnone op Hop Hclass). }
    unfold NextState, IsValidAction, IsValidTuple, IsValidPlan.
    cbn [IsValidPlan_from]. by rewrite Hparse.
Qed.

Lemma only_actions_are_called_witness :
  ParseCall "gravity(a)" = Ok ("gravity", ["a"])
  ∧ NextState Variants.mixed_pddl (initial_state_ Variants.mixed_pddl)
              "gravity(a)" = Err (UnknownAction "gravity")
  ∧ IsValidPlan Variants.mixed_pddl ["gravity(a)"; "pick-up(a)"]
    = Err (UnknownAction "gravity").
Proof.
  assert (∀ op, op ∈ ops Variants.mixed_domain →
                op_class op = class_action → op_name op ≠ "gravity")
    as Hnone.
  { intros op Hop Hclass Hname. cbn in Hop.
    repeat (apply elem_of_cons in Hop as [-> | Hop]);
      try discriminate Hclass; try discriminate Hname.
    inversion Hop. }
  pose proof (proj2 (only_actions_are_called
                       (mk_analysis (Some Variants.mixed_domain)
                                    (Some Blocks.the_problem))
                       Variants.mixed_domain Blocks.the_problem
                       "gravity(a)")
                "gravity" ["a"] eq_refl Hnone
                (initial_state_ Variants.mixed_pddl))
    as (Hnext & _ & _ & Hplan).
  split; [reflexivity|]. split; [exact Hnext|]. exact (Hplan ["pick-up(a)"]).
Defined.

(** ** The operator lists *)

Lemma filter_split_length {A} (P Q : A → Prop)
    `{!∀ x, Decision (P x)} `{!∀ x, Decision (Q x)} (l : list A) :
  (∀ x, P x → Q x → False) →
  (length (filter P l) + length (filter Q l) ≤ length l)%nat
  ∧ ((length (filter P l) + length (filter Q l))%nat = length l
     ↔ Forall (λ x, P x ∨ Q x) l).
Proof.
  intros Hdisjoint. induction l as [|x l [IHle IHeq]]; [by split|].
  rewrite !filter_cons.
  destruct (decide (P x)) as [HP|HP], (decide (Q x)) as [HQ|HQ]; simpl.
  - destruct (Hdisjoint x HP HQ).
  - split; [lia|]. rewrite Forall_cons. split.
    + intros Hlen. split; [by left|]. apply IHeq. lia.
    + intros [_ Hall]. apply IHeq in Hall. lia.
  - split; [lia|]. rewrite Forall_cons. split.
    + intros Hlen. split; [by right|]. apply IHeq. lia.
    + intros [_ Hall]. apply IHeq in Hall. lia.
  - split; [lia|]. rewrite Forall_cons. split; [lia|].
    by intros [[?|?] _].
Qed.

(** X19.  The domain's operators are split between the action list and the
    axiom list, each in the order of the domain: the axioms kept are a
    sublist of the operators and are all axioms, the action names are a
    sublist of the operator names, operators of neither kind are dropped
    (the two lists together are as long as the operator list exactly when
    every operator is an action or an axiom), and there is one derived
    predicate per derivation rule. *)
Theorem operators_split (d : domain) :
  sublist (AxiomRule_symbol <$> GetAxioms d) (ops d)
  ∧ Forall (λ ax, op_class (AxiomRule_symbol ax) = class_axiom) (GetAxioms d)
  ∧ sublist (Action_name <$> GetActions d) (op_name <$> ops d)
  ∧ (length (GetActions d) + length (GetAxioms d) ≤ length (ops d))%nat
  ∧ ((length (GetActions d) + length (GetAxioms d))%nat = length (ops d)
     ↔ Forall (λ op, op_class op ≠ class_other) (ops d))
  ∧ length (GetDerivedPredicates d) = length (drvs d).
Proof.
  unfold GetAxioms, GetActions, GetDerivedPredicates.
  rewrite <- !list_fmap_compose, !length_fmap.
  split; [|split; [|split; [|split; [|split]]]].
  - change (AxiomRule_symbol ∘ mkAxiomRule) with (@id operator_).
    rewrite list_fmap_id. apply sublist_filter.
  - apply Forall_fmap, Forall_forall.
    by intros op [Hclass _]%list_elem_of_filter.
  - change (Action_name ∘ Action_new) with op_name.
    apply fmap_sublist, sublist_filter.
  - apply (filter_split_length (λ op, op_class op = class_action)
             (λ op, op_class op = class_axiom)). congruence.
  - destruct (filter_split_length (λ op, op_class op = class_action)
                (λ op, op_class op = class_axiom) (ops d)) as [_ ->];
      [congruence|].
    apply Forall_iff. intros op. destruct (op_class op); split;
      try congruence; try tauto; intros [?|?]; congruence.
  - done.
Qed.

(** ** Names and what they resolve to *)

(** X20.  With pairwise distinct object names the name lists [Stringify]
    produces resolve back: the names of objects of the registry, row by row
    for argument tuples, resolve to these very objects; and with pairwise
    distinct action names each name of the action list finds its action.
    The overloads keep positions: the i-th name is the name of the i-th
    action, the i-th row the names of the i-th tuple. *)
Theorem Stringify_names_resolve (pddl : Pddl) :
  (NoDup (Stringify_objects (objects_ pddl)) →
   (∀ objects,
      Forall (λ o, o ∈ objects_ pddl) objects →
      mapR (Object_Parse pddl) (Stringify_objects objects) = Ok objects)
   ∧ (∀ arguments,
        Forall (Forall (λ o, o ∈ objects_ pddl)) arguments →
        mapR (mapR (Object_Parse pddl)) (Stringify_arguments arguments)
        = Ok arguments))
  ∧ (NoDup (Stringify_actions (actions_ pddl)) →
     ∀ i action,
       actions_ pddl !! i = Some action →
       Stringify_actions (actions_ pddl) !! i = Some (Action_name action)
       ∧ List.find (λ a, bool_decide (Action_name a = Action_name action))
                   (actions_ pddl) = Some action)
  ∧ (∀ arguments i,
       Stringify_arguments arguments !! i
       = Stringify_objects <$> arguments !! i).
Proof.
  split; [|split].
  - intros Hnd. split.
    + intros objects Hall. by apply mapR_Object_Parse_names.
    + intros arguments. induction 1 as [|args arguments Hargs _ IH]; [done|].
      unfold Stringify_arguments. rewrite fmap_cons. cbn [mapR].
      rewrite mapR_Object_Parse_names by done. simpl.
      unfold Stringify_arguments in IH. by rewrite IH.
  - intros Hnd i action Hi. split.
    + unfold Stringify_actions. by rewrite list_lookup_fmap, Hi.
    + apply find_NoDup; [done|]. by eapply list_elem_of_lookup_2.
  - intros arguments i. unfold Stringify_arguments.
    by rewrite list_lookup_fmap.
Qed.

Lemma Stringify_names_resolve_witness :
  NoDup (Stringify_objects (objects_ Blocks.pddl))
  ∧ Forall (λ o, o ∈ objects_ Blocks.pddl)
           [Blocks.obj Blocks.b; Blocks.obj Blocks.a]
  ∧ mapR (Object_Parse Blocks.pddl)
         (Stringify_objects [Blocks.obj Blocks.b; Blocks.obj Blocks.a])
    = Ok [Blocks.obj Blocks.b; Blocks.obj Blocks.a].
Proof.
  assert (NoDup (Stringify_objects (objects_ Blocks.pddl))) as Hnd
    by by_evaluation.
  assert (Forall (λ o, o ∈ objects_ Blocks.pddl)
                 [Blocks.obj Blocks.b; Blocks.obj Blocks.a]) as Hall
    by by_evaluation.
  split; [exact Hnd|]. split; [exact Hall|].
  exact (proj1 (proj1 (Stringify_names_resolve Blocks.pddl) Hnd) _ Hall).
Defined.

(** ** The goal *)

Lemma plan_run_reachable pddl plan :
  ∀ state reached,
    reachable pddl state → plan_run pddl state plan reached →
    reachable pddl reached.
Proof.
  induction plan as [|t plan IH]; intros state reached Hstate Hrun.
  - by inversion Hrun; subst.
  - inversion Hrun as [|? ? S1 ? ? _ Hnext Hrest]; subst.
    eapply IH; [|exact Hrest]. by eapply reachable_next.
Qed.

(** X21.  In a validated façade the two goal tests agree: for a plan all of
    whose actions are valid one after the other, [IsValidPlan] answers what
    [IsGoalSatisfied] answers on the text form of the state the plan
    reaches, which is read back without error: both are the goal evaluated
    on that state. *)
Theorem IsValidPlan_IsGoalSatisfied (pddl : Pddl) (plan : list string)
    (reached : State) :
  wf_pddl pddl = true →
  plan_run pddl (initial_state_ pddl) plan reached →
  IsValidPlan pddl plan = IsGoalSatisfied pddl (Stringify reached)
  ∧ IsGoalSatisfied pddl (Stringify reached) = Goal_eval pddl reached.
Proof.
  intros Hwf Hrun.
  assert (IsGoalSatisfied pddl (Stringify reached) = Goal_eval pddl reached)
    as Hgoal.
  { unfold IsGoalSatisfied.
    rewrite ParseState_Stringify_registered; [done | done |].
    apply reachable_registered; [done|].
    eapply plan_run_reachable; [apply reachable_initial | exact Hrun]. }
  split; [|done]. rewrite Hgoal. unfold IsValidPlan.
  rewrite IsValidPlan_from_fold.
  rewrite <- (app_nil_r plan). by rewrite (plan_fold_app _ _ _ _ _ Hrun).
Qed.

Lemma IsValidPlan_IsGoalSatisfied_witness :
  wf_pddl Blocks.pddl = true
  ∧ plan_run Blocks.pddl (initial_state_ Blocks.pddl) ["pick-up(a)"]
             Blocks.holding_a
  ∧ IsValidPlan Blocks.pddl ["pick-up(a)"]
    = IsGoalSatisfied Blocks.pddl (Stringify Blocks.holding_a).
Proof.
  assert (wf_pddl Blocks.pddl = true) as Hwf by (vm_compute; reflexivity).
  assert (plan_run Blocks.pddl (initial_state_ Blocks.pddl) ["pick-up(a)"]
                   Blocks.holding_a) as Hrun.
  { apply (plan_run_cons Blocks.pddl _ _ Blocks.holding_a);
      [by_evaluation | by_evaluation | apply plan_run_nil]. }
  split; [exact Hwf|]. split; [exact Hrun|].
  exact (proj1 (IsValidPlan_IsGoalSatisfied Blocks.pddl _ _ Hwf Hrun)).
Defined.
